(** * ABRSQOL: the quality-of-life inversion of
      [ABRSQOL/invert_quality_of_life.py]

    A shallow embedding of [invert_quality_of_life] over the real numbers.
    Every numpy operation of the source is read as its exact counterpart on
    [R]: a float is a real, [x ** y] on a positive base is [Rpower x y],
    [x ** -1] is [/ x], [numpy.exp] is [exp].  Rounding and the IEEE special
    values (infinities, NaN) are outside the model; the predicate
    [valid_input] below describes the inputs on which every base of a power
    is positive and every divisor is non-zero, and the lemmas
    [pass_positive] and [run_positive] show that the iteration never leaves
    that domain.

    The two-dimensional arrays [w], [L], [L_b] (shape J x Theta) are lists of
    rows together with their column count, the J x 1 price arrays are the
    list of their J cells.  Python exceptions are values of [exn]; the text
    written by [print] is a list of [event]s carried by the loop state.

    The reading of the columns from the table (lines 80-86) is not part of
    the model: the function starts from the extracted arrays.  The theorems
    on the control flow (dimension checks, number of passes, what is
    returned) make no assumption on the data; those on the values computed
    assume a valid input. *)

From Stdlib Require Import Reals Lra Lia List ZArith Bool.
Import ListNotations.

Set Implicit Arguments.

Open Scope R_scope.

(** ** Arrays *)

(** A one-dimensional array, shape [(n,)]. *)
Abbreviation vector := (list R).

(** The cells of a two-dimensional array, one list per row. *)
Abbreviation matrix := (list (list R)).

(** A two-dimensional numpy array as [DataFrame.values] returns it: the
    column count is part of the array (an array may have no row and still
    have columns). *)
Record ndarray := mk_ndarray { shape1 : nat; cells : matrix }.

(** [len(a)], the row count. *)
Definition len (a : ndarray) : nat := length (cells a).

(** Every row of a numpy array has [shape1] cells. *)
Definition well_shaped (a : ndarray) : Prop :=
  Forall (fun r => length r = shape1 a) (cells a).

(** [has_shape J T m]: [m] has [J] rows of [T] cells. *)
Definition has_shape (J T : nat) (m : matrix) : Prop :=
  length m = J /\ Forall (fun r => length r = T) m.

(** Cell [m[i, t]]. *)
Definition cell (m : matrix) (i t : nat) : R := nth t (nth i m []) 0.

(** Elementwise combination of two arrays of one shape. *)
Fixpoint map2 (f : R -> R -> R) (xs ys : vector) : vector :=
  match xs, ys with
  | x :: xs', y :: ys' => f x y :: map2 f xs' ys'
  | _, _ => []
  end.

Fixpoint ew (f : R -> R -> R) (a b : matrix) : matrix :=
  match a, b with
  | r :: a', q :: b' => map2 f r q :: ew f a' b'
  | _, _ => []
  end.

(** [(J, Theta) op (Theta,)]: the one-dimensional operand is broadcast to
    every row. *)
Definition row_bc (f : R -> R -> R) (a : matrix) (v : vector) : matrix :=
  map (fun r => map2 f r v) a.

(** [(Theta,) op (J, Theta)]. *)
Definition bc_row (f : R -> R -> R) (v : vector) (a : matrix) : matrix :=
  map (fun r => map2 f v r) a.

(** [(J, Theta) op (J, 1)]: the cell of row [i] of the column is broadcast
    along row [i]. *)
Fixpoint col_bc (f : R -> R -> R) (a : matrix) (c : vector) : matrix :=
  match a, c with
  | r :: a', x :: c' => map (fun y => f y x) r :: col_bc f a' c'
  | _, _ => []
  end.

(** [(J, 1) op (J, Theta)]. *)
Fixpoint bc_col (f : R -> R -> R) (c : vector) (a : matrix) : matrix :=
  match c, a with
  | x :: c', r :: a' => map (f x) r :: bc_col f c' a'
  | _, _ => []
  end.

(** A function applied to every cell (an operation with a scalar). *)
Definition mmap (f : R -> R) (a : matrix) : matrix := map (map f) a.

(** [a.sum(axis=0)] for an array of [T] columns: the rows added up. *)
Definition sum_axis0 (T : nat) (a : matrix) : vector :=
  fold_right (map2 Rplus) (repeat 0 T) a.

(** [a.sum()], all cells added up. *)
Definition vsum (v : vector) : R := fold_right Rplus 0 v.
Definition sum_all (a : matrix) : R := vsum (map vsum a).

(** [numpy.ones(shape=(J, T))]. *)
Definition ones (J T : nat) : matrix := repeat (repeat 1 T) J.

(** [a[0]] raises [IndexError] on an array without rows. *)
Definition getitem0 (A : Type) (a : list A) : option A :=
  match a with
  | [] => None
  | r :: _ => Some r
  end.

(** ** Exceptions and output *)

Inductive axis := Rows | Columns.

Inductive exn :=
| ValueError (dimension_mismatch : axis)
| IndexError
| ZeroDivisionError.

Inductive result (A : Type) :=
| Ok (a : A)
| Raise (e : exn).
Arguments Raise {A} e.

Definition bind (A B : Type) (m : result A) (k : A -> result B) : result B :=
  match m with
  | Ok a => k a
  | Raise e => Raise e
  end.

Notation "x <- m ;; k" := (bind m (fun x => k))
  (at level 61, m at next level, right associativity).

Definition index0 (A : Type) (a : list A) : result A :=
  match getitem0 a with
  | Some r => Ok r
  | None => Raise IndexError
  end.

(** The lines the function prints. *)
Inductive event :=
| Begin_loop
| Iteration (count : Z) (O_total : R)
| Generated.

(** ** Inputs *)

(** The arrays of lines 80-86, after their extraction from the table. *)
Record extracted := mk_extracted {
  w : ndarray;
  p_H : vector;
  P_t : vector;
  p_n : vector;
  L : ndarray;
  L_b : ndarray
}.

Record params := mk_params {
  alpha : R;
  beta : R;
  gamma : R;
  xi : R;
  conv : R;
  tolerance : R;
  maxiter : Z
}.

(** The defaults of the signature. *)
Definition default_params : params :=
  mk_params (7 / 10) (1 / 2) 3 (11 / 2) (1 / 2) (1 / 10000000000) 10000.

(** ** The dimension checks, lines 89-104 *)

(** [len(set(ns)) != 1] is false exactly when [ns] is not empty and all its
    members are equal. *)
Definition one_value (ns : list nat) : bool :=
  match ns with
  | [] => false
  | n :: ns' => forallb (Nat.eqb n) ns'
  end.

Definition row_counts (x : extracted) : list nat :=
  [len (L_b x); len (L x); len (w x);
   length (P_t x); length (p_H x); length (p_n x)].

Definition column_counts (x : extracted) : list nat :=
  [shape1 (L_b x); shape1 (L x); shape1 (w x)].

Definition check_dimensions (x : extracted) : result (nat * nat) :=
  if negb (one_value (row_counts x)) then Raise (ValueError Rows)
  else
    let J := len (L_b x) in
    if negb (one_value (column_counts x)) then Raise (ValueError Columns)
    else
      let Theta := shape1 (L_b x) in
      Ok (J, Theta).

(** ** Preprocessing, lines 109-126 *)

(** What the loop reads: the dimensions, the wages, the rescaled [L_b], the
    relative variables and the price levels. *)
Record derived := mk_derived {
  d_J : nat;
  d_Theta : nat;
  d_w : matrix;
  d_L_b : matrix;
  L_hat : matrix;
  w_hat : matrix;
  P_hat : vector;
  P : vector
}.

(** The aggregate price level of lines 125-126. *)
Definition price_level (a b : R) (pt pn ph : vector) : vector :=
  map2 Rmult
    (map2 Rmult (map (fun x => Rpower x (a * b)) pt)
                (map (fun x => Rpower x (a * (1 - b))) pn))
    (map (fun x => Rpower x (1 - a)) ph).

(** Lines 110-112. *)
Definition adjust_L_b (x : extracted) : matrix :=
  let L_bar := sum_axis0 (shape1 (L x)) (cells (L x)) in
  let L_b_adjust :=
    map2 Rdiv L_bar (sum_axis0 (shape1 (L_b x)) (cells (L_b x))) in
  row_bc Rmult (cells (L_b x)) L_b_adjust.

Definition preprocess (p : params) (x : extracted) (J Theta : nat)
  : result derived :=
  let L_b' := adjust_L_b x in
  L0 <- index0 (cells (L x)) ;;
  let L_hat := row_bc Rdiv (cells (L x)) L0 in
  w0 <- index0 (cells (w x)) ;;
  let w_hat := row_bc Rdiv (cells (w x)) w0 in
  P_t0 <- index0 (P_t x) ;;
  let P_t_hat := map (fun v => v / P_t0) (P_t x) in
  p_H0 <- index0 (p_H x) ;;
  let p_H_hat := map (fun v => v / p_H0) (p_H x) in
  p_n0 <- index0 (p_n x) ;;
  let p_n_hat := map (fun v => v / p_n0) (p_n x) in
  let P_hat := price_level (alpha p) (beta p) P_t_hat p_n_hat p_H_hat in
  let P := price_level (alpha p) (beta p) (P_t x) (p_n x) (p_H x) in
  Ok (mk_derived J Theta (cells (w x)) L_b' L_hat w_hat P_hat P).

(** ** The loop, lines 128-165 *)

Record state := mk_state {
  A_hat : matrix;
  A : matrix;
  O_vector_total : list R;
  O_total : R;
  count : Z;
  stdout : list event
}.

(** Where a pass ends: in the next state, or in an exception (with the
    state it was raised in). *)
Inductive step :=
| Next (s : state)
| Raised (e : exn) (s : state).

Section Loop.

Variable p : params.
Variable d : derived.

(** Lines 130-137. *)
Definition initial : state :=
  let A_hat := ones (d_J d) (d_Theta d) in
  mk_state A_hat A_hat [] 100000 1 [Begin_loop].

(** The test of the [while], line 138. *)
Definition continue (s : state) : bool :=
  (if Rgt_dec (O_total s) (tolerance p) then true else false)
  && (count s <=? maxiter p)%Z.

(** Line 143. *)
Definition nom_of (a : matrix) : matrix :=
  mmap (fun v => Rpower v (gamma p)) (col_bc Rdiv (ew Rmult a (d_w d)) (P d)).

(** Line 144. *)
Definition Psi_b_of (nom : matrix) : matrix :=
  mmap Rinv
    (mmap (fun v => v + 1)
       (row_bc Rdiv (mmap (fun v => (exp (xi p) - 1) * v) nom)
          (sum_axis0 (d_Theta d) nom))).

(** Line 147. *)
Definition mathcal_L_of (Psi_b : matrix) : matrix :=
  bc_row Rplus
    (sum_axis0 (d_Theta d) (ew Rmult (d_L_b d) Psi_b))
    (mmap (fun v => v * (exp (xi p) - 1)) (ew Rmult (d_L_b d) Psi_b)).

(** Line 153, once [mathcal_L_hat] is there and [1 / gamma] is defined. *)
Definition A_hat_up_of (mathcal_L_hat : matrix) : matrix :=
  ew Rmult
    (bc_col Rmult (P_hat d) (mmap (fun v => 1 / v) (w_hat d)))
    (mmap (fun v => Rpower v (1 / gamma p))
       (ew Rdiv (L_hat d) mathcal_L_hat)).

(** Line 157. *)
Definition O_total_of (A_hat_up a_hat : matrix) : R :=
  sum_all (mmap Rabs (ew Rminus A_hat_up a_hat)) / INR (d_J d).

(** Line 161. *)
Definition damp (A_hat_up a_hat : matrix) : matrix :=
  ew Rplus (mmap (fun v => conv p * v) A_hat_up)
           (mmap (fun v => (1 - conv p) * v) a_hat).

(** Lines 143-153: the update of one pass, from the current guess. *)
Definition update (a : matrix) : result matrix :=
  let nom := nom_of a in
  let Psi_b := Psi_b_of nom in
  let mathcal_L := mathcal_L_of Psi_b in
  mathcal_L0 <- index0 mathcal_L ;;
  let mathcal_L_hat := row_bc Rdiv mathcal_L mathcal_L0 in
  if Req_dec_T (gamma p) 0 then Raise ZeroDivisionError
  else Ok (A_hat_up_of mathcal_L_hat).

(** One pass of the loop body, lines 139-165. *)
Definition pass (s : state) : step :=
  let s1 := mk_state (A_hat s) (A s) (O_vector_total s) (O_total s) (count s)
              (stdout s ++ [Iteration (count s) (O_total s)]) in
  match update (A s1) with
  | Raise e => Raised e s1
  | Ok A_hat_up =>
      let O_total' := O_total_of A_hat_up (A_hat s1) in
      let A_hat' := damp A_hat_up (A_hat s1) in
      Next (mk_state A_hat' A_hat' (O_vector_total s1 ++ [O_total'])
              O_total' (count s1 + 1) (stdout s1))
  end.

(** The [while] loop.  [fuel] bounds the number of passes; [None] means the
    bound was too small for the loop to leave. *)
Fixpoint while (fuel : nat) (s : state) : option step :=
  if continue s then
    match fuel with
    | O => None
    | S fuel' =>
        match pass s with
        | Next s' => while fuel' s'
        | Raised e s' => Some (Raised e s')
        end
    end
  else Some (Next s).

Definition run : option step := while (Z.to_nat (maxiter p)) initial.

End Loop.

(** ** The function *)

(** [A[:, 0]], line 169: [IndexError] on an array without columns. *)
Definition column0 (T : nat) (a : matrix) : result vector :=
  match T with
  | O => Raise IndexError
  | S _ => Ok (map (fun r => nth 0 r 0) a)
  end.

(** What a call leaves behind: the printed lines, and the returned vector or
    the exception. *)
Definition outcome := (list event * result vector)%type.

Definition invert_quality_of_life (p : params) (x : extracted)
  : option outcome :=
  match check_dimensions x with
  | Raise e => Some ([], Raise e)
  | Ok (J, Theta) =>
      match preprocess p x J Theta with
      | Raise e => Some ([], Raise e)
      | Ok d =>
          match run p d with
          | None => None
          | Some (Raised e s) => Some (stdout s, Raise e)
          | Some (Next s) =>
              match column0 Theta (A s) with
              | Raise e => Some (stdout s ++ [Generated], Raise e)
              | Ok v => Some (stdout s ++ [Generated], Ok v)
              end
          end
      end
  end.

(** ** Sums *)

Definition col_sum (m : matrix) (t : nat) : R :=
  vsum (map (fun r => nth t r 0) m).

(** [sum_over n f] is the sum of [f j] for [j < n]. *)
Definition sum_over (n : nat) (f : nat -> R) : R := vsum (map f (seq 0 n)).

(** ** The equations of a pass *)

(** The update as the model's equations give it, for location [i] and
    column [t], from the current guess [a]. *)
Definition spec_nom (p : params) (d : derived) (a : matrix)
  (i t : nat) : R :=
  Rpower (cell a i t * cell (d_w d) i t / nth i (P d) 0) (gamma p).

Definition spec_Psi_b (p : params) (d : derived) (a : matrix)
  (i t : nat) : R :=
  / ((exp (xi p) - 1) * spec_nom p d a i t
     / sum_over (d_J d) (fun j => spec_nom p d a j t)
     + 1).

Definition spec_mathcal_L (p : params) (d : derived) (a : matrix)
  (i t : nat) : R :=
  sum_over (d_J d) (fun j => cell (d_L_b d) j t * spec_Psi_b p d a j t)
  + cell (d_L_b d) i t * spec_Psi_b p d a i t * (exp (xi p) - 1).

Definition spec_mathcal_L_hat (p : params) (d : derived) (a : matrix)
  (i t : nat) : R :=
  spec_mathcal_L p d a i t / spec_mathcal_L p d a 0 t.

Definition spec_A_hat_new (p : params) (d : derived) (a : matrix)
  (i t : nat) : R :=
  nth i (P_hat d) 0 * (1 / cell (w_hat d) i t)
  * Rpower (cell (L_hat d) i t / spec_mathcal_L_hat p d a i t) (1 / gamma p).

(** ** Passes and what they print *)

Definition is_Iteration (e : event) : bool :=
  match e with
  | Iteration _ _ => true
  | _ => false
  end.

(** The number of passes begun, read off the printed lines. *)
Definition iterations (out : list event) : nat :=
  length (filter is_Iteration out).

Definition state_of (r : step) : state :=
  match r with
  | Next s => s
  | Raised _ s => s
  end.

(** The state a pass leaves when its update is [A_hat_up]. *)
Definition after_pass (p : params) (d : derived) (s : state)
  (A_hat_up : matrix) : state :=
  let O_total' := O_total_of d A_hat_up (A_hat s) in
  let A_hat' := damp p A_hat_up (A_hat s) in
  mk_state A_hat' A_hat' (O_vector_total s ++ [O_total']) O_total'
    (count s + 1) (stdout s ++ [Iteration (count s) (O_total s)]).

(** [k] passes from a state, whatever the test of the loop says. *)
Fixpoint passes_from (p : params) (d : derived) (k : nat) (s : state)
  : step :=
  match k with
  | O => Next s
  | S k' =>
      match pass p d s with
      | Next s' => passes_from p d k' s'
      | Raised e s' => Raised e s'
      end
  end.

(** The state after a pass that found the all-ones guess again. *)
Definition after_uniform_pass (d : derived) (s : state) : state :=
  let o := ones (d_J d) (d_Theta d) in
  mk_state o o (O_vector_total s ++ [0]) 0 (count s + 1)
    (stdout s ++ [Iteration (count s) (O_total s)]).

(** ** Valid inputs and the domain of the model *)

(** The arrays the loop reads have the shapes the checks promise. *)
Record well_formed (d : derived) : Prop := {
  wf_w : has_shape (d_J d) (d_Theta d) (d_w d);
  wf_L_b : has_shape (d_J d) (d_Theta d) (d_L_b d);
  wf_L_hat : has_shape (d_J d) (d_Theta d) (L_hat d);
  wf_w_hat : has_shape (d_J d) (d_Theta d) (w_hat d);
  wf_P_hat : length (P_hat d) = d_J d;
  wf_P : length (P d) = d_J d
}.

Definition pos_cells (J T : nat) (m : matrix) : Prop :=
  forall i t, (i < J)%nat -> (t < T)%nat -> 0 < cell m i t.

Definition pos_vector (J : nat) (v : vector) : Prop :=
  forall i, (i < J)%nat -> 0 < nth i v 0.

(** What preprocessing hands to the loop on a valid input: arrays of the
    right shapes, positive cells, and relative variables that are 1 at the
    first location. *)
Record in_domain (d : derived) : Prop := {
  dom_wf : well_formed d;
  dom_J : (0 < d_J d)%nat;
  dom_Theta : (0 < d_Theta d)%nat;
  dom_w : pos_cells (d_J d) (d_Theta d) (d_w d);
  dom_L_b : pos_cells (d_J d) (d_Theta d) (d_L_b d);
  dom_L_hat : pos_cells (d_J d) (d_Theta d) (L_hat d);
  dom_w_hat : pos_cells (d_J d) (d_Theta d) (w_hat d);
  dom_P : pos_vector (d_J d) (P d);
  dom_P_hat : pos_vector (d_J d) (P_hat d);
  first_L_hat : forall t, (t < d_Theta d)%nat -> cell (L_hat d) 0 t = 1;
  first_w_hat : forall t, (t < d_Theta d)%nat -> cell (w_hat d) 0 t = 1;
  first_P_hat : nth 0 (P_hat d) 0 = 1
}.

(** The guess keeps its shape, and [A] is [A_hat]. *)
Record shaped (d : derived) (s : state) : Prop := {
  sh_A_hat : has_shape (d_J d) (d_Theta d) (A_hat s);
  sh_alias : A s = A_hat s
}.

(** The guess stays positive and is 1 at the first location. *)
Record inv (d : derived) (s : state) : Prop := {
  inv_shaped : shaped d s;
  inv_pos : pos_cells (d_J d) (d_Theta d) (A_hat s);
  inv_first : forall t, (t < d_Theta d)%nat -> cell (A_hat s) 0 t = 1
}.

Definition rows_agree (x : extracted) : Prop :=
  len (L x) = len (L_b x) /\ len (w x) = len (L_b x)
  /\ length (P_t x) = len (L_b x) /\ length (p_H x) = len (L_b x)
  /\ length (p_n x) = len (L_b x).

Definition columns_agree (x : extracted) : Prop :=
  shape1 (L x) = shape1 (L_b x) /\ shape1 (w x) = shape1 (L_b x).

(** The inputs the function is written for: arrays that pass the checks and
    have a location and a column. *)
Record admissible (x : extracted) : Prop := {
  adm_w : well_shaped (w x);
  adm_L : well_shaped (L x);
  adm_L_b : well_shaped (L_b x);
  adm_rows : one_value (row_counts x) = true;
  adm_columns : one_value (column_counts x) = true;
  adm_J : (0 < len (L_b x))%nat;
  adm_Theta : (0 < shape1 (L_b x))%nat
}.

Definition positive (v : vector) : Prop := Forall (fun c => 0 < c) v.

(** Valid inputs: admissible arrays of positive data, a non-zero [gamma]
    and a damping factor between 0 and 1. *)
Record valid_input (p : params) (x : extracted) : Prop := {
  valid_adm : admissible x;
  valid_w : Forall positive (cells (w x));
  valid_L : Forall positive (cells (L x));
  valid_L_b : Forall positive (cells (L_b x));
  valid_p_H : positive (p_H x);
  valid_P_t : positive (P_t x);
  valid_p_n : positive (p_n x);
  valid_gamma : gamma p <> 0;
  valid_conv : 0 <= conv p <= 1
}.

(** What preprocessing computes when no index fails. *)
Definition derived_of (p : params) (x : extracted) : derived :=
  let rel v := map (fun c => c / nth 0 v 0) v in
  mk_derived (len (L_b x)) (shape1 (L_b x)) (cells (w x)) (adjust_L_b x)
    (row_bc Rdiv (cells (L x)) (nth 0 (cells (L x)) []))
    (row_bc Rdiv (cells (w x)) (nth 0 (cells (w x)) []))
    (price_level (alpha p) (beta p) (rel (P_t x)) (rel (p_n x)) (rel (p_H x)))
    (price_level (alpha p) (beta p) (P_t x) (p_n x) (p_H x)).

(** Every entry of [w] multiplied by [c]. *)
Definition scale_w (c : R) (x : extracted) : extracted :=
  mk_extracted
    (mk_ndarray (shape1 (w x)) (mmap (Rmult c) (cells (w x))))
    (p_H x) (P_t x) (p_n x) (L x) (L_b x).

(** All members of a list are its first member. *)
Definition all_same (A : Type) (l : list A) : Prop :=
  match l with
  | [] => True
  | r :: l' => Forall (eq r) l'
  end.

(** Every row of the six arrays is the first row. *)
Definition identical_locations (x : extracted) : Prop :=
  all_same (cells (w x)) /\ all_same (p_H x) /\ all_same (P_t x)
  /\ all_same (p_n x) /\ all_same (cells (L x)) /\ all_same (cells (L_b x)).

(** ** Example inputs *)

(** Two locations, one column. *)
Definition example_x : extracted :=
  mk_extracted (mk_ndarray 1 [[1]; [2]]) [1; 2] [1; 1] [1; 1]
    (mk_ndarray 1 [[1]; [3]]) (mk_ndarray 1 [[2]; [2]]).

(** Two identical locations. *)
Definition uniform_x : extracted :=
  mk_extracted (mk_ndarray 1 [[1]; [1]]) [1; 1] [1; 1] [1; 1]
    (mk_ndarray 1 [[1]; [1]]) (mk_ndarray 1 [[1]; [1]]).

(** [L] has one row and [L_b] two. *)
Definition mismatch_x : extracted :=
  mk_extracted (mk_ndarray 1 [[1]; [2]]) [1; 2] [1; 1] [1; 1]
    (mk_ndarray 1 [[1]]) (mk_ndarray 1 [[2]; [2]]).

Definition with_tolerance (p : params) (tol : R) : params :=
  mk_params (alpha p) (beta p) (gamma p) (xi p) (conv p) tol (maxiter p).

Definition with_maxiter (p : params) (n : Z) : params :=
  mk_params (alpha p) (beta p) (gamma p) (xi p) (conv p) (tolerance p) n.

(** The defaults with [maxiter = 1]. *)
Definition one_pass_params : params := with_maxiter default_params 1.

(** [maxiter = 1] and a tolerance equal to the objective the loop starts
    with. *)
Definition no_pass_params : params :=
  with_tolerance (with_maxiter default_params 1) 100000.

(** A tolerance of -1 with [maxiter = n]. *)
Definition negative_tolerance_params (n : Z) : params :=
  with_maxiter (with_tolerance default_params (-1)) n.

(** Valid data: admissible arrays of positive data and a non-zero [gamma],
    whatever the damping factor is. *)
Record valid_data (p : params) (x : extracted) : Prop := {
  vd_adm : admissible x;
  vd_w : Forall positive (cells (w x));
  vd_L : Forall positive (cells (L x));
  vd_L_b : Forall positive (cells (L_b x));
  vd_p_H : positive (p_H x);
  vd_P_t : positive (P_t x);
  vd_p_n : positive (p_n x);
  vd_gamma : gamma p <> 0
}.

(** ** Other inputs *)

(** Every entry of a one-dimensional array multiplied by [c]. *)
Definition scale_vector (c : R) (v : vector) : vector := map (Rmult c) v.

(** Every entry of a two-dimensional array multiplied by [c]. *)
Definition scale_array (c : R) (a : ndarray) : ndarray :=
  mk_ndarray (shape1 a) (mmap (Rmult c) (cells a)).

(** The populations and the prices in other units: [L], [L_b], [P_t],
    [p_n] and [p_H] multiplied by a constant each. *)
Definition rescale_units (c_L c_b c_t c_n c_H : R) (x : extracted)
  : extracted :=
  mk_extracted (w x) (scale_vector c_H (p_H x)) (scale_vector c_t (P_t x))
    (scale_vector c_n (p_n x)) (scale_array c_L (L x))
    (scale_array c_b (L_b x)).

(** A table without rows: six arrays of no row. *)
Definition empty_x : extracted :=
  mk_extracted (mk_ndarray 1 []) [] [] [] (mk_ndarray 1 []) (mk_ndarray 1 []).

(** Two locations and an empty list of columns for [w], [L] and [L_b]. *)
Definition no_column_x : extracted :=
  mk_extracted (mk_ndarray 0 [[]; []]) [1; 2] [1; 1] [1; 1]
    (mk_ndarray 0 [[]; []]) (mk_ndarray 0 [[]; []]).

Definition with_gamma (p : params) (g : R) : params :=
  mk_params (alpha p) (beta p) g (xi p) (conv p) (tolerance p) (maxiter p).

Definition with_conv (p : params) (c : R) : params :=
  mk_params (alpha p) (beta p) (gamma p) (xi p) c (tolerance p) (maxiter p).

(** Two locations and two columns. *)
Definition batch_x : extracted :=
  mk_extracted (mk_ndarray 2 [[1; 5]; [2; 7]]) [1; 2] [1; 1] [1; 1]
    (mk_ndarray 2 [[1; 4]; [3; 6]]) (mk_ndarray 2 [[2; 3]; [2; 5]]).

(** The same first column with another second column. *)
Definition batch_x' : extracted :=
  mk_extracted (mk_ndarray 2 [[1; 9]; [2; 8]]) [1; 2] [1; 1] [1; 1]
    (mk_ndarray 2 [[1; 2]; [3; 3]]) (mk_ndarray 2 [[2; 1]; [2; 1]]).

(** The factor the price level [P] takes when [P_t], [p_n] and [p_H] are
    multiplied by [c_t], [c_n] and [c_H]. *)
Definition price_level_factor (p : params) (c_t c_n c_H : R) : R :=
  Rpower c_t (alpha p * beta p) * Rpower c_n (alpha p * (1 - beta p))
  * Rpower c_H (1 - alpha p).

(** The iteration numbers and the objectives on the progress lines. *)
Definition printed_counts (out : list event) : list Z :=
  flat_map (fun e => match e with Iteration c _ => [c] | _ => [] end) out.

Definition printed_objectives (out : list event) : list R :=
  flat_map (fun e => match e with Iteration _ o => [o] | _ => [] end) out.

(** ** Shapes and cells of the array operations *)

Create HintDb shape.

Lemma map2_length f xs ys :
  length (map2 f xs ys) = Nat.min (length xs) (length ys).
Proof.
  revert ys; induction xs as [|x xs IH]; intros [|y ys]; simpl; auto.
Qed.

Lemma map2_length_eq f n xs ys :
  length xs = n -> length ys = n -> length (map2 f xs ys) = n.
Proof. intros; rewrite map2_length; lia. Qed.

Lemma map2_nth f xs ys i :
  (i < length xs)%nat -> (i < length ys)%nat ->
  nth i (map2 f xs ys) 0 = f (nth i xs 0) (nth i ys 0).
Proof.
  revert ys i; induction xs as [|x xs IH]; intros [|y ys] [|i]; simpl;
    intros; try lia; auto.
  apply IH; lia.
Qed.

Lemma map_nth_in (f : R -> R) xs i :
  (i < length xs)%nat -> nth i (map f xs) 0 = f (nth i xs 0).
Proof.
  revert i; induction xs as [|x xs IH]; intros [|i]; simpl; intros;
    try lia; auto.
  apply IH; lia.
Qed.

Lemma has_shape_nil T : has_shape 0 T [].
Proof. split; auto. Qed.

Lemma has_shape_cons J T r m :
  has_shape (S J) T (r :: m) <-> length r = T /\ has_shape J T m.
Proof.
  unfold has_shape; simpl; split.
  - intros [Hl Hf]; inversion Hf; subst; repeat split; auto.
  - intros [Hr [Hl Hf]]; split; auto.
Qed.

Lemma has_shape_inv J T m :
  has_shape J T m ->
  match J with
  | O => m = []
  | S J' => exists r m', m = r :: m' /\ length r = T /\ has_shape J' T m'
  end.
Proof.
  intros [Hl Hf]; destruct J, m; simpl in Hl; try discriminate; auto.
  exists l, m; inversion Hf; subst; repeat split; auto.
Qed.

Lemma has_shape_row J T m i :
  has_shape J T m -> (i < J)%nat -> length (nth i m []) = T.
Proof.
  intros [Hl Hf] Hi; rewrite Forall_forall in Hf; apply Hf, nth_In; lia.
Qed.

Lemma has_shape_cells a :
  well_shaped a -> has_shape (len a) (shape1 a) (cells a).
Proof. intros H; split; auto. Qed.

(** Two arrays of one shape with the same cells are the same array. *)
Lemma vector_ext n (u v : vector) :
  length u = n -> length v = n ->
  (forall t, (t < n)%nat -> nth t u 0 = nth t v 0) -> u = v.
Proof.
  revert u v; induction n as [|n IH]; intros [|x u] [|y v]; simpl;
    try discriminate; auto.
  intros Hu Hv H; f_equal.
  - apply (H 0%nat); lia.
  - apply IH; try lia; intros t Ht; apply (H (S t)); lia.
Qed.

Lemma matrix_ext J T (a b : matrix) :
  has_shape J T a -> has_shape J T b ->
  (forall i t, (i < J)%nat -> (t < T)%nat -> cell a i t = cell b i t) ->
  a = b.
Proof.
  revert a b; induction J as [|J IH]; intros a b Ha Hb H.
  - apply has_shape_inv in Ha, Hb; subst; auto.
  - apply has_shape_inv in Ha, Hb.
    destruct Ha as (r & a' & -> & Hr & Ha), Hb as (q & b' & -> & Hq & Hb).
    f_equal.
    + apply vector_ext with (n := T); auto.
      intros t Ht; apply (H 0%nat t); lia.
    + apply IH; auto; intros i t Hi Ht; apply (H (S i) t); lia.
Qed.

Section Shapes.

Variables J T : nat.

Lemma shape_ew f a b :
  has_shape J T a -> has_shape J T b -> has_shape J T (ew f a b).
Proof.
  revert a b; induction J as [|n IH]; intros a b Ha Hb;
    apply has_shape_inv in Ha, Hb.
  - subst; apply has_shape_nil.
  - destruct Ha as (r & a' & -> & Hr & Ha), Hb as (q & b' & -> & Hq & Hb).
    simpl; apply has_shape_cons; split; auto using map2_length_eq.
Qed.

Lemma cell_ew f a b i t :
  has_shape J T a -> has_shape J T b -> (i < J)%nat -> (t < T)%nat ->
  cell (ew f a b) i t = f (cell a i t) (cell b i t).
Proof.
  revert a b i; induction J as [|n IH]; intros a b i Ha Hb Hi Ht; [lia|].
  apply has_shape_inv in Ha, Hb.
  destruct Ha as (r & a' & -> & Hr & Ha), Hb as (q & b' & -> & Hq & Hb).
  destruct i as [|i]; simpl.
  - unfold cell; simpl; apply map2_nth; lia.
  - apply (IH a' b' i); auto; lia.
Qed.

Lemma shape_mmap f a : has_shape J T a -> has_shape J T (mmap f a).
Proof.
  intros [Hl Hf]; split; unfold mmap.
  - now rewrite length_map.
  - rewrite Forall_map; eapply Forall_impl; [|exact Hf].
    intros r Hr; simpl; now rewrite length_map.
Qed.

Lemma cell_mmap f a i t :
  has_shape J T a -> (i < J)%nat -> (t < T)%nat ->
  cell (mmap f a) i t = f (cell a i t).
Proof.
  intros Ha Hi Ht; unfold cell, mmap.
  destruct Ha as [Hl Hf].
  rewrite (nth_indep _ [] (map f [])) by (rewrite length_map; lia).
  rewrite map_nth; apply map_nth_in.
  rewrite Forall_forall in Hf; rewrite (Hf (nth i a [])); auto.
  apply nth_In; lia.
Qed.

Lemma shape_row_bc f a v :
  has_shape J T a -> length v = T -> has_shape J T (row_bc f a v).
Proof.
  intros [Hl Hf] Hv; split; unfold row_bc.
  - now rewrite length_map.
  - rewrite Forall_map; eapply Forall_impl; [|exact Hf].
    intros r Hr; simpl; auto using map2_length_eq.
Qed.

Lemma cell_row_bc f a v i t :
  has_shape J T a -> length v = T -> (i < J)%nat -> (t < T)%nat ->
  cell (row_bc f a v) i t = f (cell a i t) (nth t v 0).
Proof.
  intros Ha Hv Hi Ht; unfold cell, row_bc.
  pose proof (has_shape_row Ha Hi) as Hr; destruct Ha as [Hl Hf].
  rewrite (nth_indep _ [] (map2 f [] v)) by (rewrite length_map; lia).
  rewrite (map_nth (fun r => map2 f r v)); apply map2_nth; lia.
Qed.

Lemma shape_bc_row f v a :
  length v = T -> has_shape J T a -> has_shape J T (bc_row f v a).
Proof.
  intros Hv [Hl Hf]; split; unfold bc_row.
  - now rewrite length_map.
  - rewrite Forall_map; eapply Forall_impl; [|exact Hf].
    intros r Hr; simpl; auto using map2_length_eq.
Qed.

Lemma cell_bc_row f v a i t :
  length v = T -> has_shape J T a -> (i < J)%nat -> (t < T)%nat ->
  cell (bc_row f v a) i t = f (nth t v 0) (cell a i t).
Proof.
  intros Hv Ha Hi Ht; unfold cell, bc_row.
  pose proof (has_shape_row Ha Hi) as Hr; destruct Ha as [Hl Hf].
  rewrite (nth_indep _ [] (map2 f v [])) by (rewrite length_map; lia).
  rewrite (map_nth (fun r => map2 f v r)); apply map2_nth; lia.
Qed.

Lemma shape_col_bc f a c :
  has_shape J T a -> length c = J -> has_shape J T (col_bc f a c).
Proof.
  revert a c; induction J as [|n IH]; intros a c Ha Hc;
    apply has_shape_inv in Ha.
  - subst; apply has_shape_nil.
  - destruct Ha as (r & a' & -> & Hr & Ha); destruct c as [|x c];
      [discriminate|].
    simpl; apply has_shape_cons; split; [now rewrite length_map|].
    apply IH; auto.
Qed.

Lemma cell_col_bc f a c i t :
  has_shape J T a -> length c = J -> (i < J)%nat -> (t < T)%nat ->
  cell (col_bc f a c) i t = f (cell a i t) (nth i c 0).
Proof.
  revert a c i; induction J as [|n IH]; intros a c i Ha Hc Hi Ht; [lia|].
  apply has_shape_inv in Ha; destruct Ha as (r & a' & -> & Hr & Ha).
  destruct c as [|x c]; [discriminate|].
  destruct i as [|i]; simpl.
  - unfold cell; simpl; apply (map_nth_in (fun y => f y x)); lia.
  - apply (IH a' c i); auto; lia.
Qed.

Lemma shape_bc_col f c a :
  length c = J -> has_shape J T a -> has_shape J T (bc_col f c a).
Proof.
  revert a c; induction J as [|n IH]; intros a c Hc Ha;
    apply has_shape_inv in Ha.
  - subst; destruct c; apply has_shape_nil.
  - destruct Ha as (r & a' & -> & Hr & Ha); destruct c as [|x c];
      [discriminate|].
    simpl; apply has_shape_cons; split; [now rewrite length_map|].
    apply IH; auto.
Qed.

Lemma cell_bc_col f c a i t :
  length c = J -> has_shape J T a -> (i < J)%nat -> (t < T)%nat ->
  cell (bc_col f c a) i t = f (nth i c 0) (cell a i t).
Proof.
  revert a c i; induction J as [|n IH]; intros a c i Hc Ha Hi Ht; [lia|].
  apply has_shape_inv in Ha; destruct Ha as (r & a' & -> & Hr & Ha).
  destruct c as [|x c]; [discriminate|].
  destruct i as [|i]; simpl.
  - unfold cell; simpl; apply (map_nth_in (f x)); lia.
  - apply (IH a' c i); auto; lia.
Qed.

Lemma length_sum_axis0 a :
  has_shape J T a -> length (sum_axis0 T a) = T.
Proof.
  intros [_ Hf]; induction Hf as [|r a Hr Hf IH]; simpl.
  - apply repeat_length.
  - apply map2_length_eq; auto.
Qed.

Lemma nth_sum_axis0 a t :
  has_shape J T a -> (t < T)%nat -> nth t (sum_axis0 T a) 0 = col_sum a t.
Proof.
  intros [_ Hf] Ht; induction Hf as [|r a Hr Hf IH]; simpl.
  - unfold col_sum; simpl; apply nth_repeat.
  - rewrite map2_nth, IH; auto; try lia.
    fold (sum_axis0 T a).
    assert (length (sum_axis0 T a) = T); [|lia].
    clear IH; induction Hf; simpl;
      [apply repeat_length | apply map2_length_eq; auto].
Qed.

Lemma shape_ones : has_shape J T (ones J T).
Proof.
  split; unfold ones; [apply repeat_length|].
  apply Forall_forall; intros r Hr; apply repeat_spec in Hr; subst.
  apply repeat_length.
Qed.

Lemma cell_ones i t : (i < J)%nat -> (t < T)%nat -> cell (ones J T) i t = 1.
Proof.
  intros Hi Ht; unfold cell, ones.
  rewrite (nth_indep _ [] (repeat 1 T)) by (rewrite repeat_length; lia).
  rewrite nth_repeat.
  rewrite (nth_indep _ 0 1) by (rewrite repeat_length; lia).
  apply nth_repeat.
Qed.

End Shapes.

#[export] Hint Resolve shape_ew shape_mmap shape_row_bc shape_bc_row
  shape_col_bc shape_bc_col length_sum_axis0 shape_ones has_shape_cells
  map2_length_eq : shape.

(** ** Sums over an index range *)

Lemma sum_over_S n f :
  sum_over (S n) f = f 0%nat + sum_over n (fun j => f (S j)).
Proof.
  unfold sum_over; simpl; f_equal.
  now rewrite <- seq_shift, map_map.
Qed.

Lemma sum_over_ext n f g :
  (forall j, (j < n)%nat -> f j = g j) -> sum_over n f = sum_over n g.
Proof.
  revert f g; induction n as [|n IH]; intros f g H; [reflexivity|].
  rewrite !sum_over_S, (H 0%nat) by lia; f_equal.
  apply IH; intros j Hj; apply H; lia.
Qed.

Lemma sum_over_scale n f k :
  sum_over n (fun j => k * f j) = k * sum_over n f.
Proof.
  revert f; induction n as [|n IH]; intros f.
  - unfold sum_over; simpl; ring.
  - rewrite !sum_over_S, IH; ring.
Qed.

Lemma sum_over_zero n f :
  (forall j, (j < n)%nat -> f j = 0) -> sum_over n f = 0.
Proof.
  revert f; induction n as [|n IH]; intros f H; [reflexivity|].
  rewrite sum_over_S, (H 0%nat) by lia.
  rewrite IH; [ring|]; intros j Hj; apply H; lia.
Qed.

Lemma sum_over_nonneg n f :
  (forall j, (j < n)%nat -> 0 <= f j) -> 0 <= sum_over n f.
Proof.
  revert f; induction n as [|n IH]; intros f H.
  - unfold sum_over; simpl; lra.
  - rewrite sum_over_S.
    assert (0 <= f 0%nat) by (apply H; lia).
    assert (0 <= sum_over n (fun j => f (S j)))
      by (apply IH; intros j Hj; apply H; lia).
    lra.
Qed.

(** A term of a sum of non-negative terms is at most the sum. *)
Lemma sum_over_term n f i :
  (forall j, (j < n)%nat -> 0 <= f j) -> (i < n)%nat -> f i <= sum_over n f.
Proof.
  revert f i; induction n as [|n IH]; intros f i H Hi; [lia|].
  rewrite sum_over_S.
  assert (0 <= f 0%nat) by (apply H; lia).
  assert (0 <= sum_over n (fun j => f (S j)))
    by (apply sum_over_nonneg; intros j Hj; apply H; lia).
  destruct i as [|i]; [lra|].
  assert (f (S i) <= sum_over n (fun j => f (S j))); [|lra].
  apply (IH (fun j => f (S j))); [intros j Hj; apply H|]; lia.
Qed.

Lemma sum_over_pos n f :
  (0 < n)%nat -> (forall j, (j < n)%nat -> 0 < f j) -> 0 < sum_over n f.
Proof.
  intros Hn H.
  assert (f 0%nat <= sum_over n f)
    by (apply sum_over_term; auto; intros j Hj; apply Rlt_le, H, Hj).
  specialize (H 0%nat Hn); lra.
Qed.

Lemma vsum_sum_over v :
  vsum v = sum_over (length v) (fun t => nth t v 0).
Proof.
  induction v as [|x v IH]; [reflexivity|].
  simpl length; rewrite sum_over_S; simpl; now rewrite IH.
Qed.

Lemma col_sum_sum_over J T m t :
  has_shape J T m -> col_sum m t = sum_over J (fun j => cell m j t).
Proof.
  intros [Hl _]; subst J; induction m as [|r m IH]; [reflexivity|].
  simpl length; rewrite sum_over_S; unfold col_sum in *; simpl.
  now rewrite IH.
Qed.

Lemma sum_all_sum_over J T m :
  has_shape J T m ->
  sum_all m = sum_over J (fun i => sum_over T (fun t => cell m i t)).
Proof.
  intros [Hl Hf]; subst J; induction Hf as [|r m Hr Hf IH]; [reflexivity|].
  simpl length; rewrite sum_over_S; unfold sum_all in *; simpl.
  rewrite IH, vsum_sum_over, Hr; reflexivity.
Qed.

Lemma cell_sum_axis0 J T m t :
  has_shape J T m -> (t < T)%nat ->
  nth t (sum_axis0 T m) 0 = sum_over J (fun j => cell m j t).
Proof.
  intros Hm Ht; rewrite (nth_sum_axis0 Hm Ht); eapply col_sum_sum_over; eauto.
Qed.

(** ** The update of one pass, cell by cell *)

Ltac shape := eauto 10 with shape.

Section Update.

Variable p : params.
Variable d : derived.

Abbreviation J := (d_J d).
Abbreviation T := (d_Theta d).

Hypothesis Hd : well_formed d.

Variable a : matrix.
Hypothesis Ha : has_shape J T a.

Local Hint Resolve wf_w wf_L_b wf_L_hat wf_w_hat wf_P_hat wf_P : shape.

Lemma shape_nom_of : has_shape J T (nom_of p d a).
Proof. unfold nom_of; shape. Qed.

Lemma cell_nom_of i t :
  (i < J)%nat -> (t < T)%nat -> cell (nom_of p d a) i t = spec_nom p d a i t.
Proof.
  intros Hi Ht; unfold nom_of, spec_nom.
  rewrite (cell_mmap (J := J) (T := T)) by shape.
  rewrite (cell_col_bc (J := J) (T := T)) by shape.
  rewrite (cell_ew (J := J) (T := T)) by shape.
  reflexivity.
Qed.

Lemma shape_Psi_b_of : has_shape J T (Psi_b_of p d (nom_of p d a)).
Proof. pose proof shape_nom_of; unfold Psi_b_of; shape. Qed.

Lemma cell_Psi_b_of i t :
  (i < J)%nat -> (t < T)%nat ->
  cell (Psi_b_of p d (nom_of p d a)) i t = spec_Psi_b p d a i t.
Proof.
  intros Hi Ht; pose proof shape_nom_of as Hn; unfold Psi_b_of, spec_Psi_b.
  rewrite !(cell_mmap (J := J) (T := T)) by shape.
  rewrite (cell_row_bc (J := J) (T := T)) by shape.
  rewrite (cell_mmap (J := J) (T := T)) by shape.
  rewrite (cell_sum_axis0 Hn Ht), cell_nom_of by auto.
  do 3 f_equal.
  apply sum_over_ext; intros j Hj; now apply cell_nom_of.
Qed.

Lemma shape_mathcal_L_of :
  has_shape J T (mathcal_L_of p d (Psi_b_of p d (nom_of p d a))).
Proof. pose proof shape_Psi_b_of; unfold mathcal_L_of; shape. Qed.

Lemma cell_mathcal_L_of i t :
  (i < J)%nat -> (t < T)%nat ->
  cell (mathcal_L_of p d (Psi_b_of p d (nom_of p d a))) i t
  = spec_mathcal_L p d a i t.
Proof.
  intros Hi Ht; pose proof shape_Psi_b_of as Hn.
  unfold mathcal_L_of, spec_mathcal_L.
  rewrite (cell_bc_row (J := J) (T := T)) by shape.
  rewrite (cell_mmap (J := J) (T := T)) by shape.
  rewrite (cell_ew (J := J) (T := T)) by shape.
  rewrite (cell_sum_axis0 (J := J) (T := T)) by shape.
  rewrite cell_Psi_b_of by auto.
  f_equal; apply sum_over_ext; intros j Hj.
  rewrite (cell_ew (J := J) (T := T)) by shape.
  now rewrite cell_Psi_b_of.
Qed.

(** With a location and a non-zero [gamma] a pass computes its update, and
    the update is the one of the equations. *)
Lemma update_spec :
  (0 < J)%nat -> gamma p <> 0 ->
  exists A_hat_up,
    update p d a = Ok A_hat_up
    /\ has_shape J T A_hat_up
    /\ forall i t, (i < J)%nat -> (t < T)%nat ->
         cell A_hat_up i t = spec_A_hat_new p d a i t.
Proof.
  intros HJ Hg; unfold update.
  pose proof shape_mathcal_L_of as Hm.
  set (mL := mathcal_L_of p d (Psi_b_of p d (nom_of p d a))) in *.
  assert (Hrow : exists r, index0 mL = Ok r /\ r = nth 0 mL []).
  { destruct mL as [|r m]; [destruct Hm; simpl in *; lia|].
    exists r; split; reflexivity. }
  destruct Hrow as (r & -> & Hr); simpl.
  destruct (Req_dec_T (gamma p) 0) as [|_]; [contradiction|].
  assert (Hlen : length r = T) by (subst r; eapply has_shape_row; eauto).
  eexists; split; [reflexivity|]; split; [unfold A_hat_up_of; shape|].
  intros i t Hi Ht; unfold A_hat_up_of, spec_A_hat_new, spec_mathcal_L_hat.
  rewrite (cell_ew (J := J) (T := T)) by shape.
  rewrite (cell_bc_col (J := J) (T := T)) by shape.
  rewrite !(cell_mmap (J := J) (T := T)) by shape.
  rewrite (cell_ew (J := J) (T := T)) by shape.
  rewrite (cell_row_bc (J := J) (T := T)) by shape.
  unfold mL at 1; rewrite cell_mathcal_L_of by auto.
  replace (nth t r 0) with (cell mL 0 t) by (subst r; reflexivity).
  unfold mL; rewrite cell_mathcal_L_of by auto.
  reflexivity.
Qed.

End Update.

(** ** The domain of the model *)

Lemma Rpower_base_1 y : Rpower 1 y = 1.
Proof. unfold Rpower; rewrite ln_1, Rmult_0_r; apply exp_0. Qed.

Lemma Rpower_pos x y : 0 < Rpower x y.
Proof. unfold Rpower; apply exp_pos. Qed.

Section Domain.

Variable p : params.
Variable d : derived.
Hypothesis Hd : in_domain d.

Abbreviation J := (d_J d).
Abbreviation T := (d_Theta d).

Variable a : matrix.

Lemma spec_nom_pos i t : 0 < spec_nom p d a i t.
Proof. apply Rpower_pos. Qed.

Lemma spec_Psi_b_pos i t : (i < J)%nat -> 0 < spec_Psi_b p d a i t.
Proof.
  intros Hi; unfold spec_Psi_b; apply Rinv_0_lt_compat.
  set (n := spec_nom p d a i t).
  set (S := sum_over J (fun j => spec_nom p d a j t)).
  assert (Hn : 0 < n) by apply spec_nom_pos.
  assert (HnS : n <= S).
  { apply (sum_over_term (fun j => spec_nom p d a j t)); auto.
    intros j _; apply Rlt_le, spec_nom_pos. }
  assert (HS : 0 < S) by lra.
  assert (He : 0 < exp (xi p)) by apply exp_pos.
  assert (Hr : 0 < n * / S <= 1).
  { split.
    - apply Rmult_lt_0_compat; auto using Rinv_0_lt_compat.
    - replace 1 with (S * / S) by (field; lra).
      apply Rmult_le_compat_r; auto.
      apply Rlt_le, Rinv_0_lt_compat; auto. }
  replace ((exp (xi p) - 1) * n / S) with ((exp (xi p) - 1) * (n * / S))
    by (unfold Rdiv; ring).
  nra.
Qed.

Lemma spec_mathcal_L_pos i t :
  (i < J)%nat -> (t < T)%nat -> 0 < spec_mathcal_L p d a i t.
Proof.
  intros Hi Ht; unfold spec_mathcal_L.
  set (f := fun j => cell (d_L_b d) j t * spec_Psi_b p d a j t).
  assert (Hf : forall j, (j < J)%nat -> 0 < f j).
  { intros j Hj; apply Rmult_lt_0_compat;
      [apply (dom_L_b Hd) | apply spec_Psi_b_pos]; auto. }
  assert (Hi' : f i <= sum_over J f).
  { apply sum_over_term; auto; intros j Hj; apply Rlt_le; auto. }
  fold (f i); specialize (Hf i Hi).
  assert (He : 0 < exp (xi p)) by apply exp_pos.
  nra.
Qed.

Lemma spec_mathcal_L_hat_pos i t :
  (i < J)%nat -> (t < T)%nat -> 0 < spec_mathcal_L_hat p d a i t.
Proof.
  intros Hi Ht; unfold spec_mathcal_L_hat, Rdiv.
  apply Rmult_lt_0_compat; [|apply Rinv_0_lt_compat];
    apply spec_mathcal_L_pos; auto; apply (dom_J Hd).
Qed.

Lemma spec_A_hat_new_pos i t :
  (i < J)%nat -> (t < T)%nat -> 0 < spec_A_hat_new p d a i t.
Proof.
  intros Hi Ht; unfold spec_A_hat_new.
  apply Rmult_lt_0_compat; [apply Rmult_lt_0_compat|].
  - apply (dom_P_hat Hd); auto.
  - apply Rdiv_lt_0_compat; [lra | apply (dom_w_hat Hd); auto].
  - apply Rpower_pos.
Qed.

(** The update is 1 at the first location, in every column. *)
Lemma spec_A_hat_new_first t : (t < T)%nat -> spec_A_hat_new p d a 0 t = 1.
Proof.
  intros Ht; unfold spec_A_hat_new, spec_mathcal_L_hat.
  rewrite (first_P_hat Hd), (first_w_hat Hd), (first_L_hat Hd) by auto.
  pose proof (spec_mathcal_L_pos (dom_J Hd) Ht) as Hm.
  replace (1 / (spec_mathcal_L p d a 0 t / spec_mathcal_L p d a 0 t))
    with 1 by (field; lra).
  rewrite Rpower_base_1; field.
Qed.

(** On a positive guess the bases of the powers of a pass are positive:
    the reals agree with numpy's [**] there. *)
Lemma bases_positive i t :
  pos_cells J T a -> (i < J)%nat -> (t < T)%nat ->
  0 < cell a i t * cell (d_w d) i t / nth i (P d) 0
  /\ 0 < cell (L_hat d) i t / spec_mathcal_L_hat p d a i t.
Proof.
  intros Hpos Hi Ht; split.
  - apply Rdiv_lt_0_compat; [apply Rmult_lt_0_compat|].
    + apply Hpos; auto.
    + apply (dom_w Hd); auto.
    + apply (dom_P Hd); auto.
  - apply Rdiv_lt_0_compat;
      [apply (dom_L_hat Hd) | apply spec_mathcal_L_hat_pos]; auto.
Qed.

End Domain.

(** ** The loop: passes, termination, invariants *)

Lemma iterations_app out out' :
  iterations (out ++ out') = (iterations out + iterations out')%nat.
Proof. unfold iterations; now rewrite filter_app, length_app. Qed.

Lemma iterations_snoc out c o :
  iterations (out ++ [Iteration c o]) = S (iterations out).
Proof. rewrite iterations_app; unfold iterations; simpl; lia. Qed.

Section Loop_facts.

Variable p : params.
Variable d : derived.

Lemma pass_Ok s A_hat_up :
  update p d (A s) = Ok A_hat_up ->
  pass p d s = Next (after_pass p d s A_hat_up).
Proof. intros H; unfold pass; simpl; rewrite H; reflexivity. Qed.

Lemma pass_cases s :
  (exists A_hat_up,
      update p d (A s) = Ok A_hat_up
      /\ pass p d s = Next (after_pass p d s A_hat_up))
  \/ (exists e s',
      pass p d s = Raised e s'
      /\ count s' = count s
      /\ stdout s' = stdout s ++ [Iteration (count s) (O_total s)]).
Proof.
  unfold pass; simpl; destruct (update p d (A s)) as [up|e].
  - left; exists up; split; reflexivity.
  - right; eexists _, _; repeat split; reflexivity.
Qed.

Lemma continue_true s :
  continue p s = true <->
  O_total s > tolerance p /\ (count s <= maxiter p)%Z.
Proof.
  unfold continue; destruct (Rgt_dec (O_total s) (tolerance p)); simpl.
  - rewrite Z.leb_le; tauto.
  - split; [discriminate | tauto].
Qed.

Lemma continue_false s :
  continue p s = false <->
  O_total s <= tolerance p \/ (maxiter p < count s)%Z.
Proof.
  unfold continue; destruct (Rgt_dec (O_total s) (tolerance p)); simpl.
  - rewrite Z.leb_gt; split; [tauto | intros [?|?]; [lra | auto]].
  - split; [left; lra | auto].
Qed.

(** The loop leaves once the counter has passed [maxiter]: as many passes
    as [maxiter - count + 1] are enough. *)
Lemma while_total fuel s :
  (maxiter p - count s < Z.of_nat fuel)%Z ->
  exists r, while p d fuel s = Some r.
Proof.
  revert s; induction fuel as [|fuel IH]; intros s Hf; simpl.
  - destruct (continue p s) eqn:Hc; [|eauto].
    apply continue_true in Hc; lia.
  - destruct (continue p s) eqn:Hc; [|eauto].
    destruct (pass_cases s) as [(up & _ & ->)|(e & s' & -> & _)]; [|eauto].
    apply IH; simpl; lia.
Qed.

(** Counting the passes on the printed lines: the counter is one ahead of
    the passes begun, and no more than [maxiter] passes begin. *)
Lemma while_iterations fuel s r :
  while p d fuel s = Some r ->
  count s = (1 + Z.of_nat (iterations (stdout s)))%Z ->
  (Z.of_nat (iterations (stdout s)) <= Z.max 0 (maxiter p))%Z ->
  (Z.of_nat (iterations (stdout (state_of r))) <= Z.max 0 (maxiter p))%Z
  /\ (forall s', r = Next s' ->
        continue p s' = false
        /\ count s' = (1 + Z.of_nat (iterations (stdout s')))%Z
        /\ (iterations (stdout s) <= iterations (stdout s'))%nat
        /\ length (O_vector_total s')
           = (length (O_vector_total s)
              + (iterations (stdout s') - iterations (stdout s)))%nat).
Proof.
  revert s; induction fuel as [|fuel IH]; intros s Hw Hs Hb; simpl in Hw;
    destruct (continue p s) eqn:Hc; try discriminate.
  - injection Hw as <-; split; auto.
    intros s' [= <-]; repeat split; auto; lia.
  - pose proof (proj1 (continue_true s) Hc) as [_ Hm].
    destruct (pass_cases s) as [(up & _ & Hp)|(e & s' & Hp & Hc' & Ho)];
      rewrite Hp in Hw.
    + assert (Hi : iterations (stdout (after_pass p d s up))
                   = S (iterations (stdout s)))
        by apply iterations_snoc.
      apply IH in Hw; [| simpl count; lia | lia].
      destruct Hw as [H1 H2]; split; auto.
      intros s' Hr; destruct (H2 s' Hr) as (? & ? & Hle & Hl).
      repeat split; auto; [lia|].
      rewrite Hl; simpl O_vector_total; rewrite length_app; simpl length.
      lia.
    + injection Hw as <-; simpl state_of; split; [|discriminate].
      rewrite Ho, iterations_snoc; lia.
  - injection Hw as <-; split; auto.
    intros s' [= <-]; repeat split; auto; lia.
Qed.

(** An invariant of the passes holds when the loop has left. *)
Lemma while_invariant (I : state -> Prop) :
  (forall s, I s -> continue p s = true ->
     exists s', pass p d s = Next s' /\ I s') ->
  forall fuel s r, I s -> while p d fuel s = Some r ->
  exists s', r = Next s' /\ I s' /\ continue p s' = false.
Proof.
  intros Hstep; induction fuel as [|fuel IH]; intros s r Hs; simpl;
    destruct (continue p s) eqn:Hc; try discriminate.
  - intros [= <-]; eauto.
  - destruct (Hstep s Hs Hc) as (s' & -> & Hs'); apply IH; auto.
  - intros [= <-]; eauto.
Qed.

End Loop_facts.

(** ** Valid inputs *)

Lemma one_value_rows x :
  one_value (row_counts x) = true <->
  len (L x) = len (L_b x) /\ len (w x) = len (L_b x)
  /\ length (P_t x) = len (L_b x) /\ length (p_H x) = len (L_b x)
  /\ length (p_n x) = len (L_b x).
Proof.
  unfold one_value, row_counts, forallb.
  rewrite !andb_true_iff, !Nat.eqb_eq; intuition congruence.
Qed.

Lemma one_value_columns x :
  one_value (column_counts x) = true <->
  shape1 (L x) = shape1 (L_b x) /\ shape1 (w x) = shape1 (L_b x).
Proof.
  unfold one_value, column_counts, forallb.
  rewrite !andb_true_iff, !Nat.eqb_eq; intuition congruence.
Qed.

Lemma index0_nth (A : Type) (l : list A) (dflt : A) :
  (0 < length l)%nat -> index0 l = Ok (nth 0 l dflt).
Proof. destruct l; simpl; [lia | reflexivity]. Qed.

Section Preprocessing.

Variable p : params.
Variable x : extracted.

Abbreviation J := (len (L_b x)).
Abbreviation T := (shape1 (L_b x)).

Hypothesis Hx : admissible x.

Lemma check_dimensions_admissible : check_dimensions x = Ok (J, T).
Proof.
  unfold check_dimensions.
  now rewrite (adm_rows Hx), (adm_columns Hx).
Qed.

Lemma preprocess_admissible : preprocess p x J T = Ok (derived_of p x).
Proof.
  pose proof (adm_J Hx) as HJ.
  destruct (proj1 (one_value_rows x) (adm_rows Hx)) as (H1 & H2 & H3 & H4 & H5).
  unfold preprocess, len in *.
  rewrite (index0_nth (cells (L x)) []) by lia; simpl bind.
  rewrite (index0_nth (cells (w x)) []) by lia; simpl bind.
  rewrite (index0_nth (P_t x) 0) by lia; simpl bind.
  rewrite (index0_nth (p_H x) 0) by lia; simpl bind.
  rewrite (index0_nth (p_n x) 0) by lia; simpl bind.
  reflexivity.
Qed.

Lemma shape_w : has_shape J T (cells (w x)).
Proof.
  destruct (proj1 (one_value_rows x) (adm_rows Hx)) as (_ & <- & _).
  destruct (proj1 (one_value_columns x) (adm_columns Hx)) as (_ & <-).
  apply has_shape_cells, (adm_w Hx).
Qed.

Lemma shape_L : has_shape J T (cells (L x)).
Proof.
  destruct (proj1 (one_value_rows x) (adm_rows Hx)) as (<- & _).
  destruct (proj1 (one_value_columns x) (adm_columns Hx)) as (<- & _).
  apply has_shape_cells, (adm_L Hx).
Qed.

Lemma shape_L_b : has_shape J T (cells (L_b x)).
Proof. apply has_shape_cells, (adm_L_b Hx). Qed.

Lemma length_price_level a b pt pn ph n :
  length pt = n -> length pn = n -> length ph = n ->
  length (price_level a b pt pn ph) = n.
Proof.
  intros; unfold price_level.
  repeat apply map2_length_eq; rewrite length_map; auto.
Qed.

Lemma nth_price_level a b pt pn ph n i :
  length pt = n -> length pn = n -> length ph = n -> (i < n)%nat ->
  nth i (price_level a b pt pn ph) 0
  = Rpower (nth i pt 0) (a * b) * Rpower (nth i pn 0) (a * (1 - b))
    * Rpower (nth i ph 0) (1 - a).
Proof.
  intros Ht Hn Hh Hi; unfold price_level.
  rewrite map2_nth;
    [| rewrite (@map2_length_eq _ n) | ]; rewrite ?length_map; try lia.
  rewrite map2_nth by (rewrite length_map; lia).
  rewrite !(map_nth_in (fun v => Rpower v _)) by lia.
  reflexivity.
Qed.

Lemma length_adjust :
  length (map2 Rdiv (sum_axis0 (shape1 (L x)) (cells (L x)))
            (sum_axis0 T (cells (L_b x)))) = T.
Proof.
  pose proof shape_L; pose proof shape_L_b.
  destruct (proj1 (one_value_columns x) (adm_columns Hx)) as (-> & _).
  shape.
Qed.

(** A cell of the rescaled [L_b]: the cell times the ratio of the column
    sums. *)
Lemma cell_adjust_L_b i t :
  (i < J)%nat -> (t < T)%nat ->
  cell (adjust_L_b x) i t
  = cell (cells (L_b x)) i t
    * (sum_over J (fun j => cell (cells (L x)) j t)
       / sum_over J (fun j => cell (cells (L_b x)) j t)).
Proof.
  intros Hi Ht; unfold adjust_L_b.
  pose proof shape_L as HL; pose proof shape_L_b as HLb.
  pose proof length_adjust as Hlen.
  rewrite (cell_row_bc (J := J) (T := T)) by auto.
  destruct (proj1 (one_value_columns x) (adm_columns Hx)) as (-> & _).
  rewrite map2_nth by (erewrite length_sum_axis0; eauto).
  rewrite !(cell_sum_axis0 (J := J) (T := T)) by auto.
  reflexivity.
Qed.

Lemma derived_well_formed : well_formed (derived_of p x).
Proof.
  pose proof shape_w; pose proof shape_L; pose proof shape_L_b.
  pose proof length_adjust.
  destruct (proj1 (one_value_rows x) (adm_rows Hx)) as (? & ? & ? & ? & ?).
  split; simpl; auto.
  - unfold adjust_L_b; shape.
  - apply shape_row_bc; auto.
    eapply has_shape_row; eauto; apply (adm_J Hx).
  - apply shape_row_bc; auto.
    eapply has_shape_row; eauto; apply (adm_J Hx).
  - apply length_price_level; rewrite length_map; auto.
  - apply length_price_level; auto.
Qed.

End Preprocessing.

Lemma positive_nth v i :
  positive v -> (i < length v)%nat -> 0 < nth i v 0.
Proof.
  intros Hv Hi; unfold positive in Hv; rewrite Forall_forall in Hv.
  apply Hv, nth_In, Hi.
Qed.

Lemma positive_cells J T m :
  has_shape J T m -> Forall positive m -> pos_cells J T m.
Proof.
  intros Hm Hp i t Hi Ht; unfold cell.
  apply positive_nth.
  - rewrite Forall_forall in Hp; apply Hp, nth_In; destruct Hm; lia.
  - rewrite (has_shape_row Hm Hi); auto.
Qed.

Lemma nth_relative v i :
  (i < length v)%nat ->
  nth i (map (fun c => c / nth 0 v 0) v) 0 = nth i v 0 / nth 0 v 0.
Proof. intros Hi; now rewrite (map_nth_in (fun c => c / nth 0 v 0)). Qed.

Section Valid.

Variable p : params.
Variable x : extracted.
Hypothesis Hx : valid_input p x.

Abbreviation J := (len (L_b x)).
Abbreviation T := (shape1 (L_b x)).

Lemma pos_w : pos_cells J T (cells (w x)).
Proof.
  apply positive_cells; [apply shape_w, Hx | apply (valid_w Hx)].
Qed.

Lemma pos_L : pos_cells J T (cells (L x)).
Proof.
  apply positive_cells; [apply shape_L, Hx | apply (valid_L Hx)].
Qed.

Lemma pos_L_b : pos_cells J T (cells (L_b x)).
Proof.
  apply positive_cells; [apply shape_L_b, Hx | apply (valid_L_b Hx)].
Qed.

Lemma pos_adjust_L_b : pos_cells J T (adjust_L_b x).
Proof.
  intros i t Hi Ht; rewrite cell_adjust_L_b by (auto; apply Hx).
  pose proof (adm_J (valid_adm Hx)) as HJ.
  apply Rmult_lt_0_compat; [apply pos_L_b; auto|].
  apply Rdiv_lt_0_compat; apply sum_over_pos; auto; intros j Hj;
    [apply pos_L | apply pos_L_b]; auto.
Qed.

Lemma pos_relative m i t :
  has_shape J T m -> pos_cells J T m -> (i < J)%nat -> (t < T)%nat ->
  0 < cell (row_bc Rdiv m (nth 0 m [])) i t.
Proof.
  intros Hm Hp Hi Ht.
  pose proof (adm_J (valid_adm Hx)) as HJ.
  rewrite (cell_row_bc (J := J) (T := T)); auto.
  - apply Rdiv_lt_0_compat; [apply Hp | apply (Hp 0%nat t)]; auto.
  - eapply has_shape_row; eauto.
Qed.

Lemma first_relative m t :
  has_shape J T m -> pos_cells J T m -> (t < T)%nat ->
  cell (row_bc Rdiv m (nth 0 m [])) 0 t = 1.
Proof.
  intros Hm Hp Ht.
  pose proof (adm_J (valid_adm Hx)) as HJ.
  rewrite (cell_row_bc (J := J) (T := T)); auto.
  - pose proof (Hp 0%nat t HJ Ht); fold (cell m 0 t); field; lra.
  - eapply has_shape_row; eauto.
Qed.

(** Preprocessing keeps a valid input in the domain of the model. *)
Lemma derived_in_domain : in_domain (derived_of p x).
Proof.
  pose proof (valid_adm Hx) as Ha.
  pose proof (adm_J Ha) as HJ.
  destruct (proj1 (one_value_rows x) (adm_rows Ha)) as (H1 & H2 & H3 & H4 & H5).
  split; simpl.
  - apply derived_well_formed, Ha.
  - exact HJ.
  - apply (adm_Theta Ha).
  - apply pos_w.
  - apply pos_adjust_L_b.
  - intros i t; apply pos_relative; [apply shape_L, Ha | apply pos_L].
  - intros i t; apply pos_relative; [apply shape_w, Ha | apply pos_w].
  - intros i Hi; rewrite (@nth_price_level _ _ _ _ _ J) by auto.
    repeat apply Rmult_lt_0_compat; apply Rpower_pos.
  - intros i Hi.
    rewrite (@nth_price_level _ _ _ _ _ J) by (rewrite ?length_map; auto).
    repeat apply Rmult_lt_0_compat; apply Rpower_pos.
  - intros t; apply first_relative; [apply shape_L, Ha | apply pos_L].
  - intros t; apply first_relative; [apply shape_w, Ha | apply pos_w].
  - rewrite (@nth_price_level _ _ _ _ _ J) by (rewrite ?length_map; auto).
    rewrite !nth_relative by lia.
    assert (0 < nth 0 (P_t x) 0) by (apply positive_nth; [apply Hx | lia]).
    assert (0 < nth 0 (p_n x) 0) by (apply positive_nth; [apply Hx | lia]).
    assert (0 < nth 0 (p_H x) 0) by (apply positive_nth; [apply Hx | lia]).
    replace (nth 0 (P_t x) 0 / nth 0 (P_t x) 0) with 1 by (field; lra).
    replace (nth 0 (p_n x) 0 / nth 0 (p_n x) 0) with 1 by (field; lra).
    replace (nth 0 (p_H x) 0 / nth 0 (p_H x) 0) with 1 by (field; lra).
    rewrite !Rpower_base_1; ring.
Qed.

End Valid.

(** ** Invariants of the passes *)

Section Invariants.

Variable p : params.
Variable d : derived.

Abbreviation J := (d_J d).
Abbreviation T := (d_Theta d).

Lemma shape_damp A_hat_up a :
  has_shape J T A_hat_up -> has_shape J T a ->
  has_shape J T (damp p A_hat_up a).
Proof. intros; unfold damp; shape. Qed.

Lemma cell_damp A_hat_up a i t :
  has_shape J T A_hat_up -> has_shape J T a -> (i < J)%nat -> (t < T)%nat ->
  cell (damp p A_hat_up a) i t
  = conv p * cell A_hat_up i t + (1 - conv p) * cell a i t.
Proof.
  intros Hu Ha Hi Ht; unfold damp.
  rewrite (cell_ew (J := J) (T := T)) by shape.
  rewrite !(cell_mmap (J := J) (T := T)) by shape.
  reflexivity.
Qed.

Lemma update_Ok_inv a A_hat_up :
  well_formed d -> has_shape J T a -> update p d a = Ok A_hat_up ->
  (0 < J)%nat /\ gamma p <> 0.
Proof.
  intros Hd Ha; unfold update.
  pose proof (shape_mathcal_L_of p Hd Ha) as [Hl _].
  destruct (mathcal_L_of p d (Psi_b_of p d (nom_of p d a))) as [|r m];
    simpl in *; [discriminate|].
  destruct (Req_dec_T (gamma p) 0); [discriminate|].
  intros _; split; [lia | auto].
Qed.

Lemma update_shape a A_hat_up :
  well_formed d -> has_shape J T a -> update p d a = Ok A_hat_up ->
  has_shape J T A_hat_up.
Proof.
  intros Hd Ha Hu.
  destruct (update_Ok_inv Hd Ha Hu) as [HJ Hg].
  destruct (update_spec p Hd Ha HJ Hg) as (up & Hup & Hs & _).
  congruence.
Qed.

Lemma initial_shaped : shaped d (initial d).
Proof. split; simpl; [apply shape_ones | reflexivity]. Qed.

Lemma pass_shaped s s' :
  well_formed d -> shaped d s -> pass p d s = Next s' -> shaped d s'.
Proof.
  intros Hd [Hs Ha] Hp.
  destruct (pass_cases p d s) as [(up & Hu & Hn)|(e & s1 & Hr & _)];
    [|congruence].
  rewrite Hn in Hp; injection Hp as <-; split; simpl; auto.
  apply shape_damp; auto.
  rewrite Ha in Hu; eapply update_shape; eauto.
Qed.

Lemma pass_no_raise s :
  well_formed d -> (0 < J)%nat -> gamma p <> 0 -> shaped d s ->
  exists A_hat_up,
    pass p d s = Next (after_pass p d s A_hat_up)
    /\ update p d (A_hat s) = Ok A_hat_up
    /\ has_shape J T A_hat_up
    /\ forall i t, (i < J)%nat -> (t < T)%nat ->
         cell A_hat_up i t = spec_A_hat_new p d (A_hat s) i t.
Proof.
  intros Hd HJ Hg [Hs Ha].
  destruct (update_spec p Hd Hs HJ Hg) as (up & Hu & Hsh & Hc).
  exists up; split; [apply pass_Ok; now rewrite Ha | auto].
Qed.

Lemma initial_inv : (0 < J)%nat -> inv d (initial d).
Proof.
  intros HJ; split; [apply initial_shaped | |]; simpl.
  - intros i t Hi Ht; rewrite cell_ones by auto; lra.
  - intros t Ht; apply cell_ones; auto.
Qed.

Hypothesis Hd : in_domain d.
Hypothesis Hgamma : gamma p <> 0.
Hypothesis Hconv : 0 <= conv p <= 1.

Lemma pass_positive s :
  inv d s -> exists s', pass p d s = Next s' /\ inv d s'.
Proof.
  intros [Hs Hpos Hfirst].
  destruct (pass_no_raise (dom_wf Hd) (dom_J Hd) Hgamma Hs)
    as (up & Hp & Hu & Hsh & Hc).
  exists (after_pass p d s up); split; auto.
  pose proof (sh_A_hat Hs) as Ha.
  split; simpl.
  - split; simpl; auto; apply shape_damp; auto.
  - intros i t Hi Ht; rewrite cell_damp, Hc by auto.
    pose proof (spec_A_hat_new_pos p Hd (A_hat s) Hi Ht).
    pose proof (Hpos i t Hi Ht).
    nra.
  - intros t Ht; rewrite cell_damp, Hc by (auto; apply (dom_J Hd)).
    rewrite (spec_A_hat_new_first p Hd), Hfirst by auto; ring.
Qed.

Lemma passes_positive k s :
  inv d s -> exists s', passes_from p d k s = Next s' /\ inv d s'.
Proof.
  revert s; induction k as [|k IH]; intros s Hs; simpl; [eauto|].
  destruct (pass_positive Hs) as (s1 & -> & Hs1); auto.
Qed.

(** On a valid input the loop ends without an exception, in a state where
    the guess is positive and 1 at the first location. *)
Lemma run_positive :
  exists s, run p d = Some (Next s) /\ inv d s /\ continue p s = false.
Proof.
  destruct (while_total p d (Z.to_nat (maxiter p)) (initial d)) as [r Hr];
    [simpl; lia|].
  assert (Hstep : forall s, inv d s -> continue p s = true ->
                  exists s', pass p d s = Next s' /\ inv d s')
    by (intros s Hs _; apply pass_positive; auto).
  destruct (@while_invariant p d (inv d) Hstep _ _ _
              (initial_inv (dom_J Hd)) Hr)
    as (s & -> & Hs & Hc).
  exists s; auto.
Qed.

End Invariants.

(** ** The function on admissible inputs *)

(** The exceptions of a pass are those of [a[0]] and of [1 / gamma]. *)
Lemma update_raises p d a e :
  update p d a = Raise e -> e = IndexError \/ e = ZeroDivisionError.
Proof.
  unfold update, index0.
  destruct (getitem0 _); simpl; [|intros [= <-]; auto].
  destruct (Req_dec_T (gamma p) 0); [intros [= <-]; auto | discriminate].
Qed.

Lemma while_raises p d fuel s e s' :
  while p d fuel s = Some (Raised e s') ->
  e = IndexError \/ e = ZeroDivisionError.
Proof.
  revert s; induction fuel as [|fuel IH]; intros s; simpl;
    destruct (continue p s); try discriminate.
  unfold pass at 1; simpl.
  destruct (update p d (A s)) as [up|e1] eqn:Hu; [apply IH|].
  intros [= <- _]; eapply update_raises; eauto.
Qed.

Lemma preprocess_raises p x J T e :
  preprocess p x J T = Raise e -> e = IndexError.
Proof.
  unfold preprocess, index0.
  repeat (destruct (getitem0 _); simpl; [|intros [= <-]; auto]).
  discriminate.
Qed.

Lemma run_total p d :
  exists r, run p d = Some r
    /\ (iterations (stdout (state_of r)) <= Z.to_nat (maxiter p))%nat.
Proof.
  destruct (while_total p d (Z.to_nat (maxiter p)) (initial d)) as [r Hr];
    [simpl; lia|].
  exists r; split; auto.
  assert (H0 : iterations (stdout (initial d)) = 0%nat) by reflexivity.
  destruct (while_iterations _ _ _ _ Hr) as [Hb _]; [rewrite H0 ..|];
    [reflexivity | lia | lia].
Qed.

(** Every call ends, and begins at most [maxiter] passes. *)
Lemma invert_total p x :
  exists o, invert_quality_of_life p x = Some o
    /\ (iterations (fst o) <= Z.to_nat (maxiter p))%nat.
Proof.
  unfold invert_quality_of_life.
  destruct (check_dimensions x) as [[J T]|e];
    [|eexists; split; [reflexivity | simpl; unfold iterations; simpl; lia]].
  destruct (preprocess p x J T) as [d|e];
    [|eexists; split; [reflexivity | simpl; unfold iterations; simpl; lia]].
  destruct (run_total p d) as (r & -> & Hr).
  destruct r as [s|e s]; simpl in Hr.
  - assert (Hi : iterations (stdout s ++ [Generated]) = iterations (stdout s))
      by (rewrite iterations_app; unfold iterations; simpl; lia).
    destruct (column0 T (A s)); eexists; split; try reflexivity; simpl; lia.
  - eexists; split; [reflexivity | auto].
Qed.

Section Admissible.

Variable p : params.
Variable x : extracted.
Hypothesis Hx : admissible x.

Abbreviation J := (len (L_b x)).
Abbreviation T := (shape1 (L_b x)).

Lemma invert_admissible :
  invert_quality_of_life p x
  = match run p (derived_of p x) with
    | None => None
    | Some (Raised e s) => Some (stdout s, Raise e)
    | Some (Next s) =>
        Some (stdout s ++ [Generated], Ok (map (fun r => nth 0 r 0) (A s)))
    end.
Proof.
  unfold invert_quality_of_life.
  rewrite (check_dimensions_admissible Hx), (preprocess_admissible p Hx).
  destruct (run p (derived_of p x)) as [[s|e s]|]; auto.
  pose proof (adm_Theta Hx); destruct T; [lia | reflexivity].
Qed.

(** With a non-zero [gamma] no pass raises: the loop ends in a state whose
    guess has the shape J x Theta. *)
Lemma run_shaped :
  gamma p <> 0 ->
  exists s, run p (derived_of p x) = Some (Next s)
    /\ shaped (derived_of p x) s /\ continue p s = false.
Proof.
  intros Hg; set (d := derived_of p x).
  pose proof (derived_well_formed p Hx) as Hd; fold d in Hd.
  destruct (run_total p d) as (r & Hr & _).
  assert (Hstep : forall s, shaped d s -> continue p s = true ->
                  exists s', pass p d s = Next s' /\ shaped d s').
  { intros s Hs _.
    destruct (pass_no_raise p Hd (adm_J Hx) Hg Hs) as (up & Hp & _).
    eexists; split; [exact Hp|]; eapply pass_shaped; eauto. }
  destruct (@while_invariant p d (shaped d) Hstep _ _ _ (initial_shaped d) Hr)
    as (s & -> & Hs & Hc).
  exists s; auto.
Qed.

End Admissible.

Lemma while_preserves p d (I : state -> Prop) :
  (forall s s', I s -> pass p d s = Next s' -> I s') ->
  forall fuel s s', I s -> while p d fuel s = Some (Next s') ->
  I s' /\ continue p s' = false.
Proof.
  intros Hstep; induction fuel as [|fuel IH]; intros s s' Hs; simpl;
    destruct (continue p s) eqn:Hc; try discriminate.
  - intros [= <-]; auto.
  - destruct (pass p d s) as [s1|e s1] eqn:Hp; [|discriminate].
    apply IH; eauto.
  - intros [= <-]; auto.
Qed.

(** A call that returns a vector was made on an admissible input. *)
Lemma returns_admissible p x out v :
  well_shaped (w x) -> well_shaped (L x) -> well_shaped (L_b x) ->
  invert_quality_of_life p x = Some (out, Ok v) -> admissible x.
Proof.
  intros Hw HL HLb; unfold invert_quality_of_life, check_dimensions.
  destruct (one_value (row_counts x)) eqn:Hr; cbn [negb]; [|discriminate].
  destruct (one_value (column_counts x)) eqn:Hc; cbn [negb]; [|discriminate].
  destruct (preprocess p x _ _) as [d|e] eqn:Hp; [|discriminate].
  destruct (run p d) as [[s|e s]|]; try discriminate.
  destruct (shape1 (L_b x)) as [|T] eqn:HT; simpl; [discriminate|].
  intros _; split; auto; try lia.
  apply one_value_rows in Hr; destruct Hr as (H1 & _).
  unfold preprocess, index0, len in *.
  destruct (cells (L x)); simpl in *; [discriminate | lia].
Qed.

(** ** The example inputs are valid *)

Lemma example_admissible : admissible example_x.
Proof. split; try reflexivity; simpl; try lia; repeat constructor. Qed.

Lemma uniform_admissible : admissible uniform_x.
Proof. split; try reflexivity; simpl; try lia; repeat constructor. Qed.

Lemma default_gamma : gamma default_params <> 0.
Proof. simpl; lra. Qed.

Lemma example_valid : valid_input default_params example_x.
Proof.
  split; try apply example_admissible; simpl; try lra;
    repeat constructor; lra.
Qed.

Lemma uniform_valid p :
  gamma p <> 0 -> 0 <= conv p <= 1 -> valid_input p uniform_x.
Proof.
  intros; split; try apply uniform_admissible; simpl; auto;
    repeat constructor; lra.
Qed.

(** ** The claims *)

(** C2.  The call raises the dimension-mismatch [ValueError] exactly when
    the six arrays do not share one row count or [w], [L], [L_b] do not share
    one column count; nothing has been printed then (no preprocessing, no
    pass); and [L], [L_b] of different row counts raise it. *)
Theorem dimension_mismatch_raised p x :
  ((~ rows_agree x \/ ~ columns_agree x) <->
   exists ax, invert_quality_of_life p x = Some ([], Raise (ValueError ax)))
  /\ (forall out ax,
        invert_quality_of_life p x = Some (out, Raise (ValueError ax)) ->
        out = [])
  /\ (len (L x) <> len (L_b x) ->
      invert_quality_of_life p x = Some ([], Raise (ValueError Rows))).
Proof.
  pose proof (one_value_rows x) as Hr; pose proof (one_value_columns x) as Hc.
  fold (rows_agree x) in Hr; fold (columns_agree x) in Hc.
  unfold invert_quality_of_life, check_dimensions.
  destruct (one_value (row_counts x)); cbn [negb].
  2:{ assert (~ rows_agree x) by (intros H; apply Hr in H; discriminate).
      repeat split; eauto.
      intros out ax [= <- _]; reflexivity. }
  destruct (one_value (column_counts x)); cbn [negb].
  2:{ assert (~ columns_agree x) by (intros H; apply Hc in H; discriminate).
      repeat split; eauto.
      - intros out ax [= <- _]; reflexivity.
      - intros H1; destruct (proj1 Hr eq_refl); contradiction. }
  assert (Hno : forall out ax,
    match preprocess p x (len (L_b x)) (shape1 (L_b x)) with
    | Ok d =>
        match run p d with
        | Some (Next s) =>
            match column0 (shape1 (L_b x)) (A s) with
            | Ok v => Some (stdout s ++ [Generated], Ok v)
            | Raise e => Some (stdout s ++ [Generated], Raise e)
            end
        | Some (Raised e s) => Some (stdout s, Raise e)
        | None => None
        end
    | Raise e => Some ([], Raise e)
    end <> Some (out, Raise (ValueError ax))).
  { intros out ax.
    destruct (preprocess p x _ _) as [d|e] eqn:Hp.
    - destruct (run p d) as [[s|e s]|] eqn:Hrun; try discriminate.
      + unfold column0; destruct (shape1 (L_b x)); discriminate.
      + apply while_raises in Hrun; destruct Hrun; subst; discriminate.
    - apply preprocess_raises in Hp; subst; discriminate. }
  repeat split.
  - intros [H|H]; [destruct H; apply Hr | destruct H; apply Hc]; auto.
  - intros [ax H]; destruct (Hno _ _ H).
  - intros out ax H; destruct (Hno _ _ H).
  - intros H1; destruct (proj1 Hr eq_refl); contradiction.
Qed.

Lemma dimension_mismatch_raised_witness :
  invert_quality_of_life default_params mismatch_x
  = Some ([], Raise (ValueError Rows)).
Proof.
  apply (proj2 (proj2 (dimension_mismatch_raised default_params mismatch_x))).
  unfold len; simpl; lia.
Defined.

(** C5.  A pass computes the update of the equations: cell by cell,
    [nom = (A_hat * w / P)^gamma], [Psi_b] from [nom] and its column sum,
    [mathcal_L] from the column sum of [L_b * Psi_b], its ratio to the first
    row, and [A_hat_new = P_hat * (1 / w_hat) * (L_hat /
    mathcal_L_hat)^(1 / gamma)]. *)
Theorem pass_computes_update p d s :
  well_formed d -> (0 < d_J d)%nat -> gamma p <> 0 -> shaped d s ->
  let nom := nom_of p d (A s) in
  let Psi_b := Psi_b_of p d nom in
  let mathcal_L := mathcal_L_of p d Psi_b in
  exists A_hat_up,
    update p d (A s) = Ok A_hat_up
    /\ pass p d s = Next (after_pass p d s A_hat_up)
    /\ has_shape (d_J d) (d_Theta d) A_hat_up
    /\ forall i t, (i < d_J d)%nat -> (t < d_Theta d)%nat ->
         cell nom i t
         = Rpower (cell (A_hat s) i t * cell (d_w d) i t / nth i (P d) 0)
             (gamma p)
         /\ cell Psi_b i t
            = / ((exp (xi p) - 1) * cell nom i t
                 / sum_over (d_J d) (fun j => cell nom j t) + 1)
         /\ cell mathcal_L i t
            = sum_over (d_J d) (fun j => cell (d_L_b d) j t * cell Psi_b j t)
              + cell (d_L_b d) i t * cell Psi_b i t * (exp (xi p) - 1)
         /\ cell A_hat_up i t
            = nth i (P_hat d) 0 * (1 / cell (w_hat d) i t)
              * Rpower (cell (L_hat d) i t
                        / (cell mathcal_L i t / cell mathcal_L 0 t))
                  (1 / gamma p).
Proof.
  intros Hd HJ Hg Hs; simpl.
  destruct (pass_no_raise p Hd HJ Hg Hs) as (up & Hp & Hu & Hsh & Hc).
  destruct Hs as [Ha Hal]; rewrite Hal.
  exists up; split; [|split; [|split]]; auto.
  intros i t Hi Ht; repeat split.
  - now apply cell_nom_of.
  - rewrite cell_Psi_b_of, cell_nom_of by auto; unfold spec_Psi_b.
    do 3 f_equal; apply sum_over_ext; intros j Hj.
    now rewrite cell_nom_of.
  - rewrite cell_mathcal_L_of, cell_Psi_b_of by auto; unfold spec_mathcal_L.
    f_equal; apply sum_over_ext; intros j Hj.
    now rewrite cell_Psi_b_of.
  - rewrite Hc, !cell_mathcal_L_of by auto; reflexivity.
Qed.

Lemma pass_computes_update_witness :
  exists A_hat_up,
    update default_params (derived_of default_params example_x)
      (ones 2 1) = Ok A_hat_up
    /\ has_shape 2 1 A_hat_up.
Proof.
  destruct (@pass_computes_update default_params
              (derived_of default_params example_x)
              (initial (derived_of default_params example_x)))
    as (up & Hu & _ & Hs & _).
  - apply derived_well_formed, example_admissible.
  - simpl; unfold len; simpl; lia.
  - simpl; lra.
  - apply initial_shaped.
  - exists up; split; [exact Hu | exact Hs].
Defined.

(** C6.  In a pass the objective is the sum over all locations and columns
    of [|A_hat_new - A_hat|] divided by J, taken before the damping, and the
    next guess is [conv * A_hat_new + (1 - conv) * A_hat]. *)
Theorem pass_metric_and_damping p d s A_hat_up :
  well_formed d -> shaped d s -> update p d (A s) = Ok A_hat_up ->
  exists s',
    pass p d s = Next s'
    /\ O_total s'
       = 1 / INR (d_J d)
         * sum_over (d_J d) (fun i =>
             sum_over (d_Theta d) (fun t =>
               Rabs (cell A_hat_up i t - cell (A_hat s) i t)))
    /\ O_vector_total s' = O_vector_total s ++ [O_total s']
    /\ A s' = A_hat s'
    /\ count s' = (count s + 1)%Z
    /\ forall i t, (i < d_J d)%nat -> (t < d_Theta d)%nat ->
         cell (A_hat s') i t
         = conv p * cell A_hat_up i t + (1 - conv p) * cell (A_hat s) i t.
Proof.
  intros Hd [Ha Hal] Hu.
  assert (Hsh : has_shape (d_J d) (d_Theta d) A_hat_up)
    by (rewrite Hal in Hu; eapply update_shape; eauto).
  exists (after_pass p d s A_hat_up); split; [now apply pass_Ok|].
  simpl; repeat split; auto.
  - unfold O_total_of.
    rewrite (sum_all_sum_over (J := d_J d) (T := d_Theta d)) by shape.
    unfold Rdiv; rewrite Rmult_1_l, Rmult_comm; f_equal.
    apply sum_over_ext; intros i Hi; apply sum_over_ext; intros t Ht.
    rewrite (cell_mmap (J := d_J d) (T := d_Theta d)) by shape.
    rewrite (cell_ew (J := d_J d) (T := d_Theta d)) by shape.
    reflexivity.
  - intros i t Hi Ht; now apply cell_damp with (d := d).
Qed.

Lemma pass_metric_and_damping_witness :
  exists s' A_hat_up,
    pass default_params (derived_of default_params example_x)
      (initial (derived_of default_params example_x)) = Next s'
    /\ cell (A_hat s') 1 0 = 1 / 2 * cell A_hat_up 1 0 + (1 - 1 / 2) * 1.
Proof.
  set (d := derived_of default_params example_x).
  assert (Hd : well_formed d) by apply derived_well_formed, example_admissible.
  assert (HJ : (0 < d_J d)%nat) by (simpl; unfold len; simpl; lia).
  destruct (pass_no_raise default_params Hd HJ default_gamma
              (initial_shaped d)) as (up & _ & Hu & _).
  destruct (@pass_metric_and_damping default_params d (initial d) up Hd
              (initial_shaped d) Hu) as (s' & Hp & _ & _ & _ & _ & Hc).
  exists s', up; split; [exact Hp|].
  apply (Hc 1%nat 0%nat); simpl; unfold len; simpl; lia.
Defined.

(** C7.  Preprocessing rescales [L_b] once, by the ratio of the column sums
    of [L] and [L_b]: the loop reads the rescaled array, whose column sums
    are those of [L]. *)
Theorem L_b_rescaled p x :
  admissible x ->
  Forall (fun c => c <> 0) (sum_axis0 (shape1 (L_b x)) (cells (L_b x))) ->
  preprocess p x (len (L_b x)) (shape1 (L_b x)) = Ok (derived_of p x)
  /\ d_L_b (derived_of p x)
     = row_bc Rmult (cells (L_b x))
         (map2 Rdiv (sum_axis0 (shape1 (L x)) (cells (L x)))
            (sum_axis0 (shape1 (L_b x)) (cells (L_b x))))
  /\ sum_axis0 (shape1 (L_b x)) (d_L_b (derived_of p x))
     = sum_axis0 (shape1 (L x)) (cells (L x)).
Proof.
  intros Hx Hnz; split; [apply preprocess_admissible, Hx|].
  split; [reflexivity|]; simpl.
  pose proof (shape_L Hx) as HL; pose proof (shape_L_b Hx) as HLb.
  pose proof (derived_well_formed p Hx) as Hd.
  pose proof (wf_L_b Hd) as Hadj; simpl in Hadj.
  destruct (proj1 (one_value_columns x) (adm_columns Hx)) as (HT & _).
  rewrite HT.
  apply vector_ext with (n := shape1 (L_b x)); try solve [shape].
  intros t Ht.
  rewrite !(cell_sum_axis0 (J := len (L_b x)) (T := shape1 (L_b x))) by auto.
  rewrite (sum_over_ext _ _ (fun j Hj => cell_adjust_L_b Hx Hj Ht)).
  set (SL := sum_over _ (fun j => cell (cells (L x)) j t)).
  set (SLb := sum_over _ (fun j => cell (cells (L_b x)) j t)).
  assert (HS : SLb <> 0).
  { rewrite Forall_forall in Hnz; unfold SLb.
    rewrite <- (cell_sum_axis0 HLb Ht); apply Hnz, nth_In.
    erewrite length_sum_axis0; eauto. }
  rewrite (sum_over_ext _ (fun j => SL / SLb * cell (cells (L_b x)) j t))
    by (intros; ring).
  rewrite sum_over_scale; fold SLb; field; auto.
Qed.

Lemma L_b_rescaled_witness :
  sum_axis0 1 (d_L_b (derived_of default_params example_x))
  = sum_axis0 1 [[1]; [3]].
Proof.
  apply (L_b_rescaled default_params example_admissible).
  repeat constructor; simpl; lra.
Defined.

Lemma first_row_ones d s :
  (0 < d_J d)%nat -> inv d s -> nth 0 (A_hat s) [] = repeat 1 (d_Theta d).
Proof.
  intros HJ [[Hs _] _ Hf].
  apply vector_ext with (n := d_Theta d).
  - eapply has_shape_row; eauto.
  - apply repeat_length.
  - intros t Ht; fold (cell (A_hat s) 0 t); rewrite Hf by auto.
    rewrite (nth_indep _ 0 1) by (rewrite repeat_length; lia).
    now rewrite nth_repeat.
Qed.

Lemma nth_column0 (a : matrix) i :
  nth i (map (fun r => nth 0 r 0) a) 0 = cell a i 0.
Proof. exact (map_nth (fun r => nth 0 r 0) a [] i). Qed.

(** C1.  On a valid input the first row of the guess is 1 in every column
    after the initial guess and after every damped update, however many
    passes are made, and the call returns a vector whose first element is 1
    (the first column of the last guess, returned as it is). *)
Theorem first_location_normalized p x :
  valid_input p x ->
  (forall k, exists s,
      passes_from p (derived_of p x) k (initial (derived_of p x)) = Next s
      /\ nth 0 (A_hat s) [] = repeat 1 (shape1 (L_b x)))
  /\ exists out v s,
       invert_quality_of_life p x = Some (out, Ok v)
       /\ run p (derived_of p x) = Some (Next s)
       /\ nth 0 (A_hat s) [] = repeat 1 (shape1 (L_b x))
       /\ v = map (fun r => nth 0 r 0) (A_hat s)
       /\ nth 0 v 0 = 1.
Proof.
  intros Hx; set (d := derived_of p x).
  pose proof (derived_in_domain Hx) as Hd; fold d in Hd.
  pose proof (valid_gamma Hx) as Hg; pose proof (valid_conv Hx) as Hc.
  split.
  - intros k.
    destruct (passes_positive p Hd Hg Hc k (initial_inv d (dom_J Hd)))
      as (s & Hs & Hi).
    exists s; split; auto.
    apply first_row_ones with (d := d); [apply (dom_J Hd) | exact Hi].
  - destruct (run_positive p Hd Hg Hc) as (s & Hr & Hi & _).
    rewrite (invert_admissible p (valid_adm Hx)); fold d; rewrite Hr.
    rewrite (sh_alias (inv_shaped Hi)).
    eexists _, _, s; repeat split.
    + apply first_row_ones with (d := d); [apply (dom_J Hd) | exact Hi].
    + rewrite nth_column0; apply (inv_first Hi), (dom_Theta Hd).
Qed.

Lemma first_location_normalized_witness :
  exists out v,
    invert_quality_of_life default_params example_x = Some (out, Ok v)
    /\ nth 0 v 0 = 1.
Proof.
  destruct (proj2 (first_location_normalized example_valid))
    as (out & v & s & H & _ & _ & _ & H1).
  exists out, v; split; [exact H | exact H1].
Defined.

(** C3.  On an admissible input whose loop ends without an exception (as it
    does when [gamma] is not zero) the call returns the first column of the
    last guess, met tolerance or not; when the objective is still above the
    tolerance, all [maxiter] passes were made and the return is this same
    vector, with no exception and nothing that tells the two cases apart. *)
Theorem non_convergence_returns p x :
  admissible x ->
  (gamma p <> 0 -> exists s, run p (derived_of p x) = Some (Next s))
  /\ forall s,
       run p (derived_of p x) = Some (Next s) ->
       invert_quality_of_life p x
       = Some (stdout s ++ [Generated],
               Ok (map (fun r => nth 0 r 0) (A_hat s)))
       /\ (O_total s > tolerance p ->
           (maxiter p < count s)%Z
           /\ iterations (stdout s) = Z.to_nat (maxiter p)).
Proof.
  intros Hx; split.
  - intros Hg; destruct (run_shaped p Hx Hg) as (s & Hr & _); eauto.
  - intros s Hr; rewrite (invert_admissible p Hx), Hr.
    pose proof (derived_well_formed p Hx) as Hd.
    destruct (@while_preserves p (derived_of p x) (shaped (derived_of p x))
                (fun s s' Hs => pass_shaped p Hd Hs) _ _ _
                (initial_shaped _) Hr) as [Hs Hc].
    rewrite (sh_alias Hs); split; auto.
    intros Ho; apply continue_false in Hc; destruct Hc as [Hc|Hc]; [lra|].
    split; auto.
    assert (H0 : iterations (stdout (initial (derived_of p x))) = 0%nat)
      by reflexivity.
    destruct (while_iterations _ _ _ _ Hr) as [Hb Hn]; [rewrite H0 ..|];
      [reflexivity | lia |].
    destruct (Hn s eq_refl) as (_ & Hcount & _); simpl in Hb; lia.
Qed.

(** C4 as the code has it.  Every call ends and begins at most [maxiter]
    passes; with [maxiter = 1], on an admissible input with a non-zero
    [gamma], the call returns after exactly one pass provided the tolerance
    is below 100000, the value the objective starts the loop with. *)
Theorem maxiter_cap p x :
  (exists o, invert_quality_of_life p x = Some o
     /\ (iterations (fst o) <= Z.to_nat (maxiter p))%nat)
  /\ (admissible x -> gamma p <> 0 -> maxiter p = 1%Z ->
      tolerance p < 100000 ->
      exists v,
        invert_quality_of_life p x
        = Some ([Begin_loop; Iteration 1 100000; Generated], Ok v)
        /\ iterations [Begin_loop; Iteration 1 100000; Generated] = 1%nat).
Proof.
  split; [apply invert_total|].
  intros Hx Hg Hm Ht; set (d := derived_of p x).
  pose proof (derived_well_formed p Hx) as Hd; fold d in Hd.
  rewrite (invert_admissible p Hx); fold d.
  unfold run; rewrite Hm; change (Z.to_nat 1) with 1%nat.
  simpl while.
  assert (Hc : continue p (initial d) = true)
    by (apply continue_true; simpl; split; [lra | lia]).
  rewrite Hc.
  destruct (pass_no_raise p Hd (adm_J Hx) Hg (initial_shaped d))
    as (up & -> & _).
  destruct (while_total p d 0 (after_pass p d (initial d) up)) as [r Hr];
    [simpl; lia|].
  simpl while in Hr.
  destruct (continue p (after_pass p d (initial d) up)); [discriminate Hr|].
  eexists; split; reflexivity.
Qed.

Lemma maxiter_cap_witness :
  exists v,
    invert_quality_of_life one_pass_params example_x
    = Some ([Begin_loop; Iteration 1 100000; Generated], Ok v).
Proof.
  destruct (proj2 (maxiter_cap one_pass_params example_x))
    as (v & H & _).
  - exact example_admissible.
  - simpl; lra.
  - reflexivity.
  - simpl; lra.
  - exists v; exact H.
Defined.

(** C4 as stated fails: with [maxiter = 1] and a tolerance of 100000 the
    loop is not entered, and the initial guess is returned after no pass. *)
Lemma maxiter_one_without_pass :
  maxiter no_pass_params = 1%Z
  /\ invert_quality_of_life no_pass_params example_x
     = Some ([Begin_loop; Generated], Ok [1; 1])
  /\ iterations [Begin_loop; Generated] = 0%nat.
Proof.
  set (p := no_pass_params).
  split; [reflexivity|]; split; [|reflexivity].
  rewrite (invert_admissible p example_admissible).
  unfold run; change (Z.to_nat (maxiter p)) with 1%nat.
  simpl while.
  assert (Hc : continue p (initial (derived_of p example_x)) = false)
    by (apply continue_false; left; simpl; lra).
  rewrite Hc; reflexivity.
Qed.

(** C10.  A call that returns a vector returns the first column of the last
    guess, one value per location: the guess has all the Theta columns, and
    only column 0 is in the result.  An admissible input with a non-zero
    [gamma] does return. *)
Theorem returns_first_column p x :
  well_shaped (w x) -> well_shaped (L x) -> well_shaped (L_b x) ->
  (admissible x -> gamma p <> 0 ->
   exists out v, invert_quality_of_life p x = Some (out, Ok v))
  /\ forall out v,
       invert_quality_of_life p x = Some (out, Ok v) ->
       exists s,
         run p (derived_of p x) = Some (Next s)
         /\ has_shape (len (L_b x)) (shape1 (L_b x)) (A_hat s)
         /\ length v = len (L_b x)
         /\ forall i, (i < len (L_b x))%nat -> nth i v 0 = cell (A_hat s) i 0.
Proof.
  intros Hw HL HLb; split.
  - intros Hx Hg; destruct (run_shaped p Hx Hg) as (s & Hr & _).
    rewrite (invert_admissible p Hx), Hr; eauto.
  - intros out v H.
    pose proof (returns_admissible p x Hw HL HLb H) as Hx.
    rewrite (invert_admissible p Hx) in H.
    destruct (run p (derived_of p x)) as [[s|e s]|] eqn:Hr; try discriminate.
    injection H as _ <-.
    pose proof (derived_well_formed p Hx) as Hd.
    destruct (@while_preserves p (derived_of p x) (shaped (derived_of p x))
                (fun s s' Hs => pass_shaped p Hd Hs) _ _ _
                (initial_shaped _) Hr) as [[Hs Ha] _].
    exists s; rewrite Ha; repeat split; try apply Hs.
    + rewrite length_map; apply Hs.
    + intros i _; apply nth_column0.
Qed.

Lemma returns_first_column_witness :
  exists out v,
    invert_quality_of_life default_params example_x = Some (out, Ok v)
    /\ length v = 2%nat.
Proof.
  assert (Hw : forall a, In a [w example_x; L example_x; L_b example_x] ->
                         well_shaped a)
    by (intros a [<-|[<-|[<-|[]]]]; repeat constructor).
  destruct (@returns_first_column default_params example_x) as [H1 H2];
    try (apply Hw; simpl; auto).
  destruct (H1 example_admissible default_gamma) as (out & v & H).
  destruct (H2 out v H) as (s & _ & _ & Hl & _).
  exists out, v; split; [exact H | exact Hl].
Defined.

(** ** Wages times a constant *)

Section Scaling.

Variable p : params.
Variable x : extracted.
Variable c : R.
Hypothesis Hx : valid_input p x.
Hypothesis Hc : 0 < c.

Abbreviation J := (len (L_b x)).
Abbreviation T := (shape1 (L_b x)).
Abbreviation d := (derived_of p x).
Abbreviation d' := (derived_of p (scale_w c x)).

Lemma scale_admissible : admissible (scale_w c x).
Proof.
  destruct (valid_adm Hx) as [Hw HL HLb Hr Hcol HJ HT].
  split; auto.
  - unfold well_shaped, scale_w, mmap; simpl.
    rewrite Forall_map; eapply Forall_impl; [|exact Hw].
    intros r Hr'; simpl; now rewrite length_map.
  - rewrite <- Hr; unfold row_counts, len, scale_w, mmap; simpl.
    now rewrite length_map.
Qed.

Lemma scale_valid : valid_input p (scale_w c x).
Proof.
  split; try apply Hx; [apply scale_admissible|].
  unfold scale_w, mmap; simpl.
  rewrite Forall_map; eapply Forall_impl; [|apply (valid_w Hx)].
  intros r Hr; unfold positive in *; rewrite Forall_map.
  eapply Forall_impl; [|exact Hr].
  intros v Hv; simpl; nra.
Qed.

Lemma cell_scaled_w i t :
  (i < J)%nat -> (t < T)%nat ->
  cell (d_w d') i t = c * cell (d_w d) i t.
Proof.
  intros Hi Ht; simpl.
  rewrite (cell_mmap (J := J) (T := T)); auto.
  apply shape_w, Hx.
Qed.

(** The relative wages do not see the constant. *)
Lemma w_hat_scaled : w_hat d' = w_hat d.
Proof.
  pose proof (derived_well_formed p (valid_adm Hx)) as Hd.
  pose proof (derived_well_formed p scale_admissible) as Hd'.
  pose proof (shape_w (valid_adm Hx)) as Hw.
  pose proof (shape_w scale_admissible) as Hw'.
  pose proof (adm_J (valid_adm Hx)) as HJ.
  apply matrix_ext with (J := J) (T := T);
    [apply (wf_w_hat Hd') | apply (wf_w_hat Hd) |].
  intros i t Hi Ht; simpl w_hat.
  rewrite !(cell_row_bc (J := J) (T := T)); auto;
    try (eapply has_shape_row; eauto).
  fold (cell (mmap (Rmult c) (cells (w x))) 0 t) (cell (cells (w x)) 0 t).
  rewrite !(cell_mmap (J := J) (T := T)) by auto.
  pose proof (pos_w Hx HJ Ht); field; lra.
Qed.

Variable a : matrix.
Hypothesis Ha : pos_cells J T a.

Lemma spec_nom_scaled i t :
  (i < J)%nat -> (t < T)%nat ->
  spec_nom p d' a i t = Rpower c (gamma p) * spec_nom p d a i t.
Proof.
  intros Hi Ht; unfold spec_nom.
  rewrite cell_scaled_w by auto.
  pose proof (bases_positive p (derived_in_domain Hx) Ha Hi Ht) as [Hb _].
  rewrite Rpower_mult_distr by auto.
  f_equal; simpl; unfold Rdiv; ring.
Qed.

Lemma spec_Psi_b_scaled i t :
  (i < J)%nat -> (t < T)%nat -> spec_Psi_b p d' a i t = spec_Psi_b p d a i t.
Proof.
  intros Hi Ht; unfold spec_Psi_b.
  change (d_J d') with J; change (d_J d) with J.
  rewrite (sum_over_ext _ _ (fun j Hj => spec_nom_scaled Hj Ht)).
  rewrite sum_over_scale, spec_nom_scaled by auto.
  assert (Hk : 0 < Rpower c (gamma p)) by apply Rpower_pos.
  assert (HS : 0 < sum_over J (fun j => spec_nom p d a j t)).
  { apply sum_over_pos; [apply (adm_J (valid_adm Hx))|].
    intros j _; apply spec_nom_pos. }
  f_equal; f_equal; field; split; lra.
Qed.

Lemma spec_mathcal_L_scaled i t :
  (i < J)%nat -> (t < T)%nat ->
  spec_mathcal_L p d' a i t = spec_mathcal_L p d a i t.
Proof.
  intros Hi Ht; unfold spec_mathcal_L.
  change (d_J d') with J; change (d_J d) with J.
  change (d_L_b d') with (d_L_b d).
  rewrite spec_Psi_b_scaled by auto; f_equal.
  apply sum_over_ext; intros j Hj; now rewrite spec_Psi_b_scaled.
Qed.

Lemma spec_A_hat_new_scaled i t :
  (i < J)%nat -> (t < T)%nat ->
  spec_A_hat_new p d' a i t = spec_A_hat_new p d a i t.
Proof.
  intros Hi Ht; unfold spec_A_hat_new, spec_mathcal_L_hat.
  pose proof (adm_J (valid_adm Hx)) as HJ.
  rewrite w_hat_scaled, !spec_mathcal_L_scaled by auto.
  reflexivity.
Qed.

Hypothesis Hs : has_shape J T a.

Lemma update_scaled : update p d' a = update p d a.
Proof.
  pose proof (derived_well_formed p (valid_adm Hx)) as Hd.
  pose proof (derived_well_formed p scale_admissible) as Hd'.
  pose proof (adm_J (valid_adm Hx)) as HJ.
  pose proof (valid_gamma Hx) as Hg.
  destruct (update_spec p Hd Hs HJ Hg) as (up & -> & Hsh & Hcell).
  destruct (update_spec p Hd' Hs HJ Hg) as (up' & -> & Hsh' & Hcell').
  f_equal; apply matrix_ext with (J := J) (T := T); auto.
  intros i t Hi Ht.
  rewrite Hcell, Hcell' by auto; now apply spec_A_hat_new_scaled.
Qed.

End Scaling.

Lemma pass_scaled p x c s :
  valid_input p x -> 0 < c -> inv (derived_of p x) s ->
  pass p (derived_of p (scale_w c x)) s = pass p (derived_of p x) s.
Proof.
  intros Hx Hc [[Hs Ha] Hpos _]; unfold pass; simpl.
  rewrite Ha, (update_scaled Hx Hc Hpos Hs); reflexivity.
Qed.

Lemma while_scaled p x c fuel s :
  valid_input p x -> 0 < c -> inv (derived_of p x) s ->
  while p (derived_of p (scale_w c x)) fuel s
  = while p (derived_of p x) fuel s.
Proof.
  intros Hx Hc; revert s; induction fuel as [|fuel IH]; intros s Hs; simpl;
    [reflexivity|].
  destruct (continue p s); [|reflexivity].
  rewrite (pass_scaled Hx Hc Hs).
  destruct (pass_positive p (derived_in_domain Hx) (valid_gamma Hx)
              (valid_conv Hx) Hs) as (s' & -> & Hs'); auto.
Qed.

(** C8.  On a valid input, multiplying every wage by a positive constant
    changes nothing: the call with the scaled wages returns the vector the
    call with the wages returns. *)
Theorem wage_scale_invariance p x c :
  valid_input p x -> 0 < c ->
  exists out v,
    invert_quality_of_life p x = Some (out, Ok v)
    /\ invert_quality_of_life p (scale_w c x) = Some (out, Ok v).
Proof.
  intros Hx Hc.
  pose proof (derived_in_domain Hx) as Hd.
  destruct (run_positive p Hd (valid_gamma Hx) (valid_conv Hx))
    as (s & Hr & _).
  rewrite (invert_admissible p (valid_adm Hx)).
  rewrite (invert_admissible p (scale_admissible c Hx)).
  unfold run in *.
  change (initial (derived_of p (scale_w c x)))
    with (initial (derived_of p x)).
  rewrite (while_scaled _ Hx Hc (initial_inv _ (dom_J Hd))), Hr.
  eexists _, _; split; reflexivity.
Qed.

Lemma wage_scale_invariance_witness :
  exists out v,
    invert_quality_of_life default_params example_x = Some (out, Ok v)
    /\ invert_quality_of_life default_params (scale_w 2 example_x)
       = Some (out, Ok v).
Proof.
  apply (wage_scale_invariance (c := 2) example_valid); lra.
Defined.

(** ** Identical locations *)

Lemma all_same_nth (A : Type) (l : list A) (dflt : A) i :
  all_same l -> (i < length l)%nat -> nth i l dflt = nth 0 l dflt.
Proof.
  destruct l as [|r l]; simpl; [lia|].
  intros H Hi; destruct i as [|i]; auto.
  rewrite Forall_forall in H; symmetry; apply H, nth_In; lia.
Qed.

Lemma all_same_cell J T m i t :
  has_shape J T m -> all_same m -> (i < J)%nat -> cell m i t = cell m 0 t.
Proof.
  intros [Hl _] H Hi; unfold cell.
  rewrite (@all_same_nth _ _ [] _ H); auto; lia.
Qed.

Section Uniform.

Variable p : params.
Variable x : extracted.
Hypothesis Hx : valid_input p x.
Hypothesis Hu : identical_locations x.

Abbreviation J := (len (L_b x)).
Abbreviation T := (shape1 (L_b x)).
Abbreviation d := (derived_of p x).
Abbreviation o := (ones J T).

Lemma uniform_w i t :
  (i < J)%nat -> cell (d_w d) i t = cell (d_w d) 0 t.
Proof.
  intros Hi; simpl.
  eapply all_same_cell; [apply shape_w, Hx | apply Hu | auto].
Qed.

Lemma uniform_L_b i t :
  (i < J)%nat -> (t < T)%nat -> cell (d_L_b d) i t = cell (d_L_b d) 0 t.
Proof.
  intros Hi Ht; simpl.
  pose proof (adm_J (valid_adm Hx)) as HJ.
  rewrite !cell_adjust_L_b by (auto; apply Hx).
  f_equal; eapply all_same_cell; [apply shape_L_b, Hx | apply Hu | auto].
Qed.

Lemma uniform_P i : (i < J)%nat -> nth i (P d) 0 = nth 0 (P d) 0.
Proof.
  intros Hi; simpl.
  pose proof (adm_J (valid_adm Hx)) as HJ.
  destruct (proj1 (one_value_rows x) (adm_rows (valid_adm Hx)))
    as (_ & _ & H3 & H4 & H5).
  destruct Hu as (_ & HH & Ht & Hn & _).
  rewrite !(@nth_price_level _ _ _ _ _ J) by auto.
  rewrite (@all_same_nth _ _ 0 _ Ht), (@all_same_nth _ _ 0 _ Hn),
    (@all_same_nth _ _ 0 _ HH)
    by lia.
  reflexivity.
Qed.

Lemma uniform_hat i t :
  (i < J)%nat -> (t < T)%nat ->
  cell (L_hat d) i t = 1 /\ cell (w_hat d) i t = 1 /\ nth i (P_hat d) 0 = 1.
Proof.
  intros Hi Ht.
  pose proof (derived_in_domain Hx) as Hd.
  pose proof (adm_J (valid_adm Hx)) as HJ.
  pose proof (shape_L (valid_adm Hx)) as HL.
  pose proof (shape_w (valid_adm Hx)) as Hw.
  destruct (proj1 (one_value_rows x) (adm_rows (valid_adm Hx)))
    as (_ & _ & H3 & H4 & H5).
  destruct Hu as (Uw & UH & Ut & Un & UL & _).
  repeat split.
  - rewrite <- (first_L_hat Hd Ht); simpl.
    rewrite !(cell_row_bc (J := J) (T := T)); auto;
      try (eapply has_shape_row; eauto).
    f_equal; eapply all_same_cell; eauto.
  - rewrite <- (first_w_hat Hd Ht); simpl.
    rewrite !(cell_row_bc (J := J) (T := T)); auto;
      try (eapply has_shape_row; eauto).
    f_equal; eapply all_same_cell; eauto.
  - rewrite <- (first_P_hat Hd); simpl.
    rewrite !(@nth_price_level _ _ _ _ _ J) by (rewrite ?length_map; auto).
    rewrite !nth_relative by lia.
    rewrite (@all_same_nth _ _ 0 _ Ut), (@all_same_nth _ _ 0 _ Un),
      (@all_same_nth _ _ 0 _ UH)
      by lia.
    reflexivity.
Qed.

Lemma uniform_nom i t :
  (i < J)%nat -> (t < T)%nat -> spec_nom p d o i t = spec_nom p d o 0 t.
Proof.
  intros Hi Ht; unfold spec_nom.
  pose proof (adm_J (valid_adm Hx)) as HJ.
  rewrite uniform_w, uniform_P by auto.
  now rewrite !(cell_ones (J := J) (T := T)) by auto.
Qed.

Lemma uniform_Psi_b i t :
  (i < J)%nat -> (t < T)%nat -> spec_Psi_b p d o i t = spec_Psi_b p d o 0 t.
Proof. intros Hi Ht; unfold spec_Psi_b; now rewrite uniform_nom. Qed.

Lemma uniform_mathcal_L i t :
  (i < J)%nat -> (t < T)%nat ->
  spec_mathcal_L p d o i t = spec_mathcal_L p d o 0 t.
Proof.
  intros Hi Ht; unfold spec_mathcal_L.
  now rewrite uniform_L_b, uniform_Psi_b.
Qed.

(** With identical locations the update of the all-ones guess is the
    all-ones guess. *)
Lemma update_uniform : update p d o = Ok o.
Proof.
  pose proof (derived_in_domain Hx) as Hd.
  pose proof (adm_J (valid_adm Hx)) as HJ.
  destruct (update_spec p (dom_wf Hd) (shape_ones J T) HJ (valid_gamma Hx))
    as (up & -> & Hsh & Hc).
  f_equal; apply matrix_ext with (J := J) (T := T); auto using shape_ones.
  intros i t Hi Ht; rewrite Hc, cell_ones by auto.
  unfold spec_A_hat_new, spec_mathcal_L_hat.
  destruct (uniform_hat Hi Ht) as (-> & -> & ->).
  rewrite uniform_mathcal_L by auto.
  pose proof (spec_mathcal_L_pos p Hd o HJ Ht).
  replace (1 / (spec_mathcal_L p d o 0 t / spec_mathcal_L p d o 0 t))
    with 1 by (field; lra).
  rewrite Rpower_base_1; field.
Qed.

Lemma O_total_uniform : O_total_of d o o = 0.
Proof.
  unfold O_total_of.
  rewrite (sum_all_sum_over (J := J) (T := T))
    by auto using shape_mmap, shape_ew, shape_ones.
  rewrite sum_over_zero; [unfold Rdiv; ring|].
  intros i Hi; apply sum_over_zero; intros t Ht.
  rewrite (cell_mmap (J := J) (T := T)) by auto using shape_ew, shape_ones.
  rewrite (cell_ew (J := J) (T := T)) by auto using shape_ones.
  rewrite Rminus_diag; apply Rabs_R0.
Qed.

Lemma damp_uniform : damp p o o = o.
Proof.
  apply matrix_ext with (J := J) (T := T);
    [apply (shape_damp p d); apply shape_ones | apply shape_ones |].
  intros i t Hi Ht.
  rewrite (cell_damp p d), cell_ones by auto using shape_ones; ring.
Qed.

Lemma pass_uniform s :
  A_hat s = o -> A s = o -> pass p d s = Next (after_uniform_pass d s).
Proof.
  intros H1 H2; rewrite (pass_Ok p d s (A_hat_up := o))
    by (rewrite H2; apply update_uniform).
  unfold after_pass, after_uniform_pass.
  rewrite H1, damp_uniform, O_total_uniform; reflexivity.
Qed.

(** The loop never leaves the all-ones guess. *)
Lemma run_uniform :
  exists s, run p d = Some (Next s) /\ A_hat s = o /\ A s = o.
Proof.
  destruct (run_total p d) as (r & Hr & _).
  assert (Hstep : forall s, A_hat s = o /\ A s = o -> continue p s = true ->
            exists s', pass p d s = Next s' /\ A_hat s' = o /\ A s' = o).
  { intros s [H1 H2] _; rewrite pass_uniform by auto.
    eexists; split; [reflexivity | split; reflexivity]. }
  assert (H0 : A_hat (initial d) = o /\ A (initial d) = o)
    by (split; reflexivity).
  destruct (@while_invariant p d _ Hstep _ _ _ H0 Hr) as (s & -> & Hs & _).
  exists s; split; auto.
Qed.

Lemma column0_ones : map (fun r => nth 0 r 0) o = repeat 1 J.
Proof.
  unfold ones; rewrite map_repeat; f_equal.
  pose proof (adm_Theta (valid_adm Hx)); destruct T; [lia | reflexivity].
Qed.

End Uniform.

Lemma column0_of_ones J T :
  (0 < T)%nat -> map (fun r => nth 0 r 0) (ones J T) = repeat 1 J.
Proof.
  intros HT; unfold ones; rewrite map_repeat; f_equal.
  destruct T; [lia | reflexivity].
Qed.

Lemma while_step p d fuel s s' :
  continue p s = true -> pass p d s = Next s' ->
  while p d (S fuel) s = while p d fuel s'.
Proof. intros Hc Hp; simpl; now rewrite Hc, Hp. Qed.

Lemma while_exit p d fuel s :
  continue p s = false -> while p d fuel s = Some (Next s).
Proof. intros Hc; destruct fuel; simpl; now rewrite Hc. Qed.

Lemma uniform_identical : identical_locations uniform_x.
Proof. repeat split; simpl; repeat constructor. Qed.

Lemma valid_data_valid_input p x :
  valid_data p x -> valid_input (with_conv p (1 / 2)) x.
Proof. intros [? ? ? ? ? ? ? ?]; split; auto; simpl; lra. Qed.

(** C9.  With identical locations (positive data, a non-zero [gamma], any
    [conv]), when the loop is entered (tolerance below the 100000 the
    objective starts with, [maxiter] at least 1) and the tolerance is not
    negative: the first pass finds the all-ones guess again, with an
    objective of 0, the damped guess is the all-ones guess, the loop stops
    after this one pass, and the call returns the vector of ones. *)
Theorem identical_locations_one_pass p x :
  valid_data p x -> identical_locations x ->
  0 <= tolerance p < 100000 -> (1 <= maxiter p)%Z ->
  let d := derived_of p x in
  let o := ones (len (L_b x)) (shape1 (L_b x)) in
  update p d o = Ok o
  /\ O_total_of d o o = 0
  /\ damp p o o = o
  /\ invert_quality_of_life p x
     = Some ([Begin_loop; Iteration 1 100000; Generated],
             Ok (repeat 1 (len (L_b x)))).
Proof.
  intros Hv Hu Ht Hm d o; subst d o.
  pose proof (valid_data_valid_input Hv) as Hx.
  assert (Hup : update p (derived_of p x)
                  (ones (len (L_b x)) (shape1 (L_b x)))
                = Ok (ones (len (L_b x)) (shape1 (L_b x))))
    by exact (update_uniform Hx Hu).
  pose proof (O_total_uniform p x) as Ho.
  pose proof (damp_uniform p x) as Hdamp.
  repeat split; auto.
  rewrite (invert_admissible p (vd_adm Hv)); unfold run.
  destruct (Z.to_nat (maxiter p)) as [|n] eqn:Hn; [lia|].
  rewrite (while_step p (derived_of p x) n (initial (derived_of p x))
             (s' := after_uniform_pass (derived_of p x)
                      (initial (derived_of p x)))).
  - rewrite while_exit by (apply continue_false; left; simpl; lra).
    simpl A; simpl stdout.
    rewrite column0_of_ones by apply (adm_Theta (vd_adm Hv)).
    reflexivity.
  - apply continue_true; simpl; split; [lra | lia].
  - rewrite (pass_Ok p (derived_of p x) (initial (derived_of p x)) Hup).
    unfold after_pass, after_uniform_pass; simpl A_hat.
    rewrite Hdamp, Ho; reflexivity.
Qed.

Lemma identical_locations_one_pass_witness :
  invert_quality_of_life (with_conv default_params 3) uniform_x
  = Some ([Begin_loop; Iteration 1 100000; Generated], Ok [1; 1]).
Proof.
  apply (@identical_locations_one_pass (with_conv default_params 3)
           uniform_x).
  - split; try apply uniform_admissible; simpl; try lra;
      repeat constructor; lra.
  - exact uniform_identical.
  - simpl; lra.
  - simpl; lia.
Defined.

(** With a tolerance of -1 the objective 0 of the first pass is above the
    tolerance: with two identical locations and [maxiter = 2] a second pass
    is made. *)
Lemma identical_locations_two_passes :
  invert_quality_of_life (negative_tolerance_params 2) uniform_x
  = Some ([Begin_loop; Iteration 1 100000; Iteration 2 0; Generated],
          Ok [1; 1]).
Proof.
  set (p := negative_tolerance_params 2).
  assert (Hx : valid_input p uniform_x) by (apply uniform_valid; simpl; lra).
  pose proof uniform_identical as Hu.
  set (d := derived_of p uniform_x).
  rewrite (invert_admissible p uniform_admissible); fold d; unfold run.
  change (Z.to_nat (maxiter p)) with 2%nat.
  rewrite (while_step p d 1 (initial d)
             (s' := after_uniform_pass d (initial d)));
    [| apply continue_true; simpl; split; [lra | lia]
     | apply (pass_uniform Hx Hu); reflexivity].
  rewrite (while_step p d 0 (after_uniform_pass d (initial d))
             (s' := after_uniform_pass d (after_uniform_pass d (initial d))));
    [| apply continue_true; simpl; split; [lra | lia]
     | apply (pass_uniform Hx Hu); reflexivity].
  rewrite while_exit by (apply continue_false; right; simpl; lia).
  reflexivity.
Qed.

Lemma non_convergence_returns_witness :
  invert_quality_of_life (negative_tolerance_params 1) uniform_x
  = Some ([Begin_loop; Iteration 1 100000; Generated], Ok [1; 1])
  /\ iterations [Begin_loop; Iteration 1 100000] = 1%nat.
Proof.
  set (p := negative_tolerance_params 1).
  assert (Hx : valid_input p uniform_x) by (apply uniform_valid; simpl; lra).
  set (d := derived_of p uniform_x).
  assert (Hr : run p d = Some (Next (after_uniform_pass d (initial d)))).
  { unfold run; change (Z.to_nat (maxiter p)) with 1%nat.
    rewrite (while_step p d 0 (initial d)
               (s' := after_uniform_pass d (initial d)));
      [| apply continue_true; simpl; split; [lra | lia]
       | apply (pass_uniform Hx uniform_identical); reflexivity].
    apply while_exit, continue_false; right; simpl; lia. }
  destruct (proj2 (non_convergence_returns p uniform_admissible) _ Hr)
    as [H1 H2].
  split; [exact H1|].
  apply H2; simpl; lra.
Defined.

(** ** Further properties: errors and edges *)

Lemma update_zero_gamma p d a :
  well_formed d -> has_shape (d_J d) (d_Theta d) a -> (0 < d_J d)%nat ->
  gamma p = 0 -> update p d a = Raise ZeroDivisionError.
Proof.
  intros Hd Ha HJ Hg; unfold update.
  pose proof (shape_mathcal_L_of p Hd Ha) as [Hl _].
  destruct (mathcal_L_of p d (Psi_b_of p d (nom_of p d a))) as [|r m];
    simpl in *; [lia|].
  destruct (Req_dec_T (gamma p) 0); [reflexivity | contradiction].
Qed.

(** A table of floats without rows that passes the dimension checks raises
    [IndexError] at [L[0]]: nothing is printed, no pass is made.  (The
    arrays of the model hold floats: the column sums of lines 110-111 are
    float divisions, which do not raise.) *)
Theorem empty_table_raises p x :
  rows_agree x -> columns_agree x -> len (L_b x) = 0%nat ->
  invert_quality_of_life p x = Some ([], Raise IndexError).
Proof.
  intros Hr Hc HJ; unfold invert_quality_of_life, check_dimensions.
  rewrite (proj2 (one_value_rows x) Hr), (proj2 (one_value_columns x) Hc).
  cbn [negb]; unfold preprocess, index0.
  destruct Hr as (HL & _); unfold len in *.
  destruct (cells (L x)); simpl in *; [reflexivity | lia].
Qed.

Lemma empty_table_raises_witness :
  invert_quality_of_life default_params empty_x = Some ([], Raise IndexError).
Proof.
  apply empty_table_raises; repeat split; reflexivity.
Defined.

(** With an empty list of columns for [L_b] no call returns a vector: every
    call ends in an exception ([A[:, 0]] raises if nothing did before). *)
Theorem without_columns_no_result p x :
  shape1 (L_b x) = 0%nat ->
  exists out e, invert_quality_of_life p x = Some (out, Raise e).
Proof.
  intros HT; unfold invert_quality_of_life, check_dimensions.
  destruct (one_value (row_counts x)); cbn [negb]; [|eauto].
  destruct (one_value (column_counts x)); cbn [negb]; [|eauto].
  destruct (preprocess p x _ _) as [d|e]; [|eauto].
  destruct (run_total p d) as (r & -> & _).
  destruct r as [s|e s]; [|eauto].
  rewrite HT; simpl; eauto.
Qed.

Lemma without_columns_no_result_witness :
  exists out e,
    invert_quality_of_life default_params no_column_x = Some (out, Raise e).
Proof.
  apply without_columns_no_result; reflexivity.
Defined.

(** With [gamma = 0] the first pass raises [ZeroDivisionError] at
    [1 / gamma]: on an admissible input, when the loop is entered (tolerance
    below 100000, [maxiter] at least 1), the call ends in that exception
    after the first progress line. *)
Theorem zero_gamma_raises p x :
  admissible x -> gamma p = 0 -> tolerance p < 100000 ->
  (1 <= maxiter p)%Z ->
  invert_quality_of_life p x
  = Some ([Begin_loop; Iteration 1 100000], Raise ZeroDivisionError).
Proof.
  intros Hx Hg Ht Hm.
  rewrite (invert_admissible p Hx); unfold run.
  destruct (Z.to_nat (maxiter p)) as [|n] eqn:Hn; [lia|].
  simpl while.
  assert (Hc : continue p (initial (derived_of p x)) = true)
    by (apply continue_true; simpl; split; [lra | lia]).
  rewrite Hc; unfold pass; simpl A.
  rewrite update_zero_gamma; auto using derived_well_formed, shape_ones.
  apply (adm_J Hx).
Qed.

Lemma zero_gamma_raises_witness :
  invert_quality_of_life (with_gamma default_params 0) example_x
  = Some ([Begin_loop; Iteration 1 100000], Raise ZeroDivisionError).
Proof.
  apply zero_gamma_raises.
  - exact example_admissible.
  - reflexivity.
  - simpl; lra.
  - simpl; lia.
Defined.

(** When the loop is not entered ([maxiter] below 1, or a tolerance of
    100000 or more) an admissible input gives the vector of ones, whatever
    the data and the other parameters are, [gamma = 0] included. *)
Theorem no_pass_returns_ones p x :
  admissible x -> (maxiter p <= 0)%Z \/ 100000 <= tolerance p ->
  invert_quality_of_life p x
  = Some ([Begin_loop; Generated], Ok (repeat 1 (len (L_b x)))).
Proof.
  intros Hx H.
  rewrite (invert_admissible p Hx); unfold run.
  rewrite while_exit.
  - simpl; rewrite column0_of_ones; [reflexivity | apply (adm_Theta Hx)].
  - apply continue_false; simpl; destruct H; [right; lia | left; lra].
Qed.

Lemma no_pass_returns_ones_witness :
  invert_quality_of_life (with_maxiter (with_gamma default_params 0) 0)
    example_x
  = Some ([Begin_loop; Generated], Ok [1; 1]).
Proof.
  apply (@no_pass_returns_ones (with_maxiter (with_gamma default_params 0) 0)
           example_x example_admissible).
  left; simpl; lia.
Defined.

(** ** Further properties: the objective *)

Lemma sum_over_le n f g :
  (forall j, (j < n)%nat -> f j <= g j) -> sum_over n f <= sum_over n g.
Proof.
  revert f g; induction n as [|n IH]; intros f g H.
  - unfold sum_over; simpl; lra.
  - rewrite !sum_over_S.
    assert (f 0%nat <= g 0%nat) by (apply H; lia).
    assert (sum_over n (fun j => f (S j)) <= sum_over n (fun j => g (S j)))
      by (apply IH; intros j Hj; apply H; lia).
    lra.
Qed.

Section Objective.

Variable p : params.
Variable d : derived.

Abbreviation J := (d_J d).
Abbreviation T := (d_Theta d).

Variables A_hat_up a : matrix.
Hypothesis Hup : has_shape J T A_hat_up.
Hypothesis Ha : has_shape J T a.

(** The sum of the absolute deviations, as the code divides it by J. *)
Lemma O_total_of_sum :
  O_total_of d A_hat_up a
  = sum_over J (fun i =>
      sum_over T (fun t => Rabs (cell A_hat_up i t - cell a i t)))
    / INR J.
Proof.
  unfold O_total_of.
  rewrite (sum_all_sum_over (J := J) (T := T)) by shape.
  f_equal; apply sum_over_ext; intros i Hi; apply sum_over_ext; intros t Ht.
  rewrite (cell_mmap (J := J) (T := T)) by shape.
  now rewrite (cell_ew (J := J) (T := T)) by shape.
Qed.

Lemma O_total_of_nonneg : 0 <= O_total_of d A_hat_up a.
Proof.
  rewrite O_total_of_sum; unfold Rdiv.
  apply Rmult_le_pos.
  - apply sum_over_nonneg; intros i _; apply sum_over_nonneg; intros t _.
    apply Rabs_pos.
  - destruct (Nat.eq_dec J 0) as [->|HJ]; [simpl; rewrite Rinv_0; lra|].
    apply Rlt_le, Rinv_0_lt_compat, lt_0_INR; lia.
Qed.

Lemma deviation_le_objective i t :
  (i < J)%nat -> (t < T)%nat ->
  Rabs (cell A_hat_up i t - cell a i t) <= INR J * O_total_of d A_hat_up a.
Proof.
  intros Hi Ht; rewrite O_total_of_sum.
  assert (HJ : 0 < INR J) by (apply lt_0_INR; lia).
  replace (INR J * (_ / INR J))
    with (sum_over J (fun i =>
            sum_over T (fun t => Rabs (cell A_hat_up i t - cell a i t))))
    by (field; lra).
  set (f := fun i => sum_over T (fun t =>
                       Rabs (cell A_hat_up i t - cell a i t))).
  apply Rle_trans with (f i).
  - unfold f.
    apply (sum_over_term
             (fun t => Rabs (cell A_hat_up i t - cell a i t))); auto.
    intros; apply Rabs_pos.
  - apply sum_over_term; auto.
    intros j _; unfold f; apply sum_over_nonneg; intros; apply Rabs_pos.
Qed.



End Objective.

(** On positive data and a positive guess (the domain of the model), after
    a pass the objective is not negative, every cell of the update is
    within [J * O_total] of the guess it was computed from, and the damped
    guess moved by [|conv|] times that deviation. *)
Theorem objective_bounds_change p d s A_hat_up :
  in_domain d -> inv d s -> update p d (A s) = Ok A_hat_up ->
  exists s',
    pass p d s = Next s'
    /\ 0 <= O_total s'
    /\ forall i t, (i < d_J d)%nat -> (t < d_Theta d)%nat ->
         Rabs (cell A_hat_up i t - cell (A_hat s) i t)
         <= INR (d_J d) * O_total s'
         /\ Rabs (cell (A_hat s') i t - cell (A_hat s) i t)
            = Rabs (conv p) * Rabs (cell A_hat_up i t - cell (A_hat s) i t).
Proof.
  intros Hdom Hinv Hu.
  pose proof (dom_wf Hdom) as Hd.
  destruct (inv_shaped Hinv) as [Ha Hal].
  assert (Hsh : has_shape (d_J d) (d_Theta d) A_hat_up)
    by (rewrite Hal in Hu; eapply update_shape; eauto).
  exists (after_pass p d s A_hat_up); split; [now apply pass_Ok|].
  simpl; split; [now apply O_total_of_nonneg|].
  intros i t Hi Ht; split; [now apply deviation_le_objective|].
  rewrite (cell_damp p d) by auto.
  rewrite <- Rabs_mult; f_equal; ring.
Qed.

Lemma objective_bounds_change_witness :
  exists s',
    pass default_params (derived_of default_params example_x)
      (initial (derived_of default_params example_x)) = Next s'
    /\ 0 <= O_total s'.
Proof.
  set (d := derived_of default_params example_x).
  assert (Hd : well_formed d) by apply derived_well_formed, example_admissible.
  assert (HJ : (0 < d_J d)%nat) by (simpl; unfold len; simpl; lia).
  destruct (pass_no_raise default_params Hd HJ default_gamma
              (initial_shaped d)) as (up & _ & Hu & _).
  assert (Hdom : in_domain d) by apply derived_in_domain, example_valid.
  destruct (@objective_bounds_change default_params d (initial d) up Hdom
              (initial_inv d HJ) Hu) as (s' & Hp & H0 & _).
  exists s'; split; [exact Hp | exact H0].
Defined.



(** A negative tolerance switches the stopping rule off: on a valid input
    (positive data, where the objective is a number and not negative) the
    call returns after exactly [maxiter] passes (none when [maxiter] is
    negative). *)
Theorem negative_tolerance_all_passes p x :
  valid_input p x -> tolerance p < 0 ->
  exists out v,
    invert_quality_of_life p x = Some (out, Ok v)
    /\ iterations out = Z.to_nat (maxiter p).
Proof.
  intros Hv Ht; set (d := derived_of p x).
  pose proof (valid_adm Hv) as Hx; pose proof (valid_gamma Hv) as Hg.
  pose proof (derived_well_formed p Hx) as Hd; fold d in Hd.
  destruct (run_total p d) as (r & Hr & _).
  set (I := fun s => shaped d s /\ 0 <= O_total s).
  assert (Hstep : forall s, I s -> continue p s = true ->
                  exists s', pass p d s = Next s' /\ I s').
  { intros s [Hs _] _.
    destruct (pass_no_raise p Hd (adm_J Hx) Hg Hs) as (up & Hp & _ & Hsh & _).
    eexists; split; [exact Hp|]; split; [eapply pass_shaped; eauto|].
    simpl; apply O_total_of_nonneg; auto; apply Hs. }
  assert (Hi : I (initial d)) by (split; [apply initial_shaped | simpl; lra]).
  destruct (@while_invariant p d I Hstep _ _ _ Hi Hr)
    as (s & -> & [Hs Ho] & Hc).
  rewrite (invert_admissible p Hx); fold d; rewrite Hr.
  eexists _, _; split; [reflexivity|].
  apply continue_false in Hc; destruct Hc as [Hc|Hc]; [lra|].
  assert (H0 : iterations (stdout (initial d)) = 0%nat) by reflexivity.
  destruct (while_iterations _ _ _ _ Hr) as [Hb Hn]; [rewrite H0 ..|];
    [reflexivity | lia |].
  destruct (Hn s eq_refl) as (_ & Hcount & _); simpl in Hb.
  rewrite iterations_app; unfold iterations at 2; simpl; lia.
Qed.

Lemma negative_tolerance_all_passes_witness :
  exists out v,
    invert_quality_of_life (negative_tolerance_params 3) example_x
    = Some (out, Ok v)
    /\ iterations out = 3%nat.
Proof.
  apply (@negative_tolerance_all_passes (negative_tolerance_params 3)
           example_x); [|simpl; lra].
  split; try apply example_admissible; simpl; try lra;
    repeat constructor; lra.
Defined.

(** With [conv = 0] the guess never moves: on a valid input (positive data,
    where every update is a number) the call returns the vector of ones. *)
Theorem zero_conv_returns_ones p x :
  valid_input p x -> conv p = 0 ->
  exists out,
    invert_quality_of_life p x = Some (out, Ok (repeat 1 (len (L_b x)))).
Proof.
  intros Hv Hc; set (d := derived_of p x).
  pose proof (valid_adm Hv) as Hx; pose proof (valid_gamma Hv) as Hg.
  pose proof (derived_well_formed p Hx) as Hd; fold d in Hd.
  destruct (run_total p d) as (r & Hr & _).
  set (o := ones (d_J d) (d_Theta d)).
  set (I := fun s => A_hat s = o /\ A s = o).
  assert (Hstep : forall s, I s -> continue p s = true ->
                  exists s', pass p d s = Next s' /\ I s').
  { intros s [H1 H2] _.
    assert (Hs : shaped d s)
      by (split; [rewrite H1; apply shape_ones | congruence]).
    destruct (pass_no_raise p Hd (adm_J Hx) Hg Hs) as (up & Hp & _ & Hsh & _).
    eexists; split; [exact Hp|].
    assert (damp p up (A_hat s) = o); [|split; simpl; auto].
    rewrite H1; apply matrix_ext with (J := d_J d) (T := d_Theta d).
    - apply (shape_damp p d); auto; apply shape_ones.
    - apply shape_ones.
    - intros i t Hi Ht.
      rewrite (cell_damp p d) by (auto; apply shape_ones).
      rewrite Hc; unfold o; rewrite cell_ones by auto; ring. }
  assert (Hi : I (initial d)) by (split; reflexivity).
  destruct (@while_invariant p d I Hstep _ _ _ Hi Hr)
    as (s & -> & [_ H2] & _).
  rewrite (invert_admissible p Hx); fold d; rewrite Hr, H2.
  unfold o; rewrite column0_of_ones by apply (adm_Theta Hx).
  eexists; reflexivity.
Qed.

Lemma zero_conv_returns_ones_witness :
  exists out,
    invert_quality_of_life (with_conv default_params 0) example_x
    = Some (out, Ok [1; 1]).
Proof.
  apply (@zero_conv_returns_ones (with_conv default_params 0) example_x);
    [|reflexivity].
  split; try apply example_admissible; simpl; try lra;
    repeat constructor; lra.
Defined.

(** ** Further properties: the values computed *)

Lemma Rpower_div x y z :
  0 < x -> 0 < y -> Rpower (x / y) z = Rpower x z / Rpower y z.
Proof.
  intros Hx Hy.
  assert (Hi : 0 < / y) by now apply Rinv_0_lt_compat.
  pose proof (Rpower_pos y z) as Hp.
  unfold Rdiv; rewrite <- Rpower_mult_distr by auto; f_equal.
  apply Rmult_eq_reg_r with (Rpower y z); [|lra].
  rewrite Rpower_mult_distr, Rinv_l, Rinv_l, Rpower_base_1 by lra.
  reflexivity.
Qed.

(** On a valid input the relative price level the loop uses, computed from
    the relative prices, is the price level relative to the first location:
    [P_hat = P / P[0]]. *)
Theorem P_hat_relative_price_level p x i :
  valid_input p x -> (i < len (L_b x))%nat ->
  nth i (P_hat (derived_of p x)) 0
  = nth i (P (derived_of p x)) 0 / nth 0 (P (derived_of p x)) 0.
Proof.
  intros Hx Hi; simpl.
  pose proof (valid_adm Hx) as Ha.
  pose proof (adm_J Ha) as HJ.
  destruct (proj1 (one_value_rows x) (adm_rows Ha)) as (_ & _ & H3 & H4 & H5).
  rewrite !(@nth_price_level _ _ _ _ _ (len (L_b x)))
    by (rewrite ?length_map; auto).
  rewrite !nth_relative by lia.
  assert (Ht : forall j, (j < len (L_b x))%nat -> 0 < nth j (P_t x) 0)
    by (intros j Hj; apply positive_nth; [apply Hx | lia]).
  assert (Hn : forall j, (j < len (L_b x))%nat -> 0 < nth j (p_n x) 0)
    by (intros j Hj; apply positive_nth; [apply Hx | lia]).
  assert (HH : forall j, (j < len (L_b x))%nat -> 0 < nth j (p_H x) 0)
    by (intros j Hj; apply positive_nth; [apply Hx | lia]).
  rewrite !Rpower_div by auto.
  pose proof (Rpower_pos (nth 0 (P_t x) 0) (alpha p * beta p)).
  pose proof (Rpower_pos (nth 0 (p_n x) 0) (alpha p * (1 - beta p))).
  pose proof (Rpower_pos (nth 0 (p_H x) 0) (1 - alpha p)).
  field; repeat split; lra.
Qed.

Lemma P_hat_relative_price_level_witness :
  nth 1 (P_hat (derived_of default_params example_x)) 0
  = nth 1 (P (derived_of default_params example_x)) 0
    / nth 0 (P (derived_of default_params example_x)) 0.
Proof.
  apply (P_hat_relative_price_level (i := 1) example_valid).
  unfold len; simpl; lia.
Defined.

(** For [xi >= 0] the share [Psi_b] of a pass lies between [exp (- xi)] and
    1, in every cell. *)
Theorem Psi_b_is_a_share p d a i t :
  in_domain d -> has_shape (d_J d) (d_Theta d) a ->
  pos_cells (d_J d) (d_Theta d) a ->
  (i < d_J d)%nat -> (t < d_Theta d)%nat -> 0 <= xi p ->
  exp (- xi p) <= cell (Psi_b_of p d (nom_of p d a)) i t <= 1.
Proof.
  intros Hd Ha _ Hi Ht Hxi.
  rewrite (cell_Psi_b_of p (dom_wf Hd) Ha Hi Ht); unfold spec_Psi_b.
  set (n := spec_nom p d a i t).
  set (S := sum_over (d_J d) (fun j => spec_nom p d a j t)).
  assert (Hn : 0 < n) by apply spec_nom_pos.
  assert (HnS : n <= S).
  { apply (sum_over_term (fun j => spec_nom p d a j t)); auto.
    intros j _; apply Rlt_le, spec_nom_pos. }
  assert (He : 1 <= exp (xi p)).
  { destruct Hxi as [Hlt| <-]; [|rewrite exp_0; lra].
    pose proof (exp_increasing 0 (xi p) Hlt); rewrite exp_0 in *; lra. }
  assert (Hr : 0 < n * / S <= 1).
  { split.
    - apply Rmult_lt_0_compat; [auto | apply Rinv_0_lt_compat; lra].
    - replace 1 with (S * / S) by (field; lra).
      apply Rmult_le_compat_r; auto.
      apply Rlt_le, Rinv_0_lt_compat; lra. }
  replace ((exp (xi p) - 1) * n / S) with ((exp (xi p) - 1) * (n * / S))
    by (unfold Rdiv; ring).
  set (den := (exp (xi p) - 1) * (n * / S) + 1).
  assert (Hden : 1 <= den <= exp (xi p)) by (unfold den; nra).
  rewrite exp_Ropp; split.
  - apply Rinv_le_contravar; lra.
  - rewrite <- Rinv_1; apply Rinv_le_contravar; lra.
Qed.

Lemma Psi_b_is_a_share_witness :
  exp (- (11 / 2))
  <= cell (Psi_b_of default_params (derived_of default_params example_x)
             (nom_of default_params (derived_of default_params example_x)
                (ones 2 1))) 1 0
  <= 1.
Proof.
  apply (@Psi_b_is_a_share default_params
           (derived_of default_params example_x) (ones 2 1) 1 0).
  - apply derived_in_domain, example_valid.
  - apply shape_ones.
  - intros i t Hi Ht; rewrite cell_ones by auto; lra.
  - simpl; unfold len; simpl; lia.
  - simpl; lia.
  - simpl; lra.
Defined.

(** In a pass, column [t] of the update depends on column [t] only: two
    problems with the same prices that agree on column [t] of the data and
    of the guess get the same column [t] of the update. *)
Theorem update_column_independent p d d' a a' A_hat_up A_hat_up' t :
  well_formed d -> well_formed d' ->
  d_J d' = d_J d -> d_Theta d' = d_Theta d ->
  P d' = P d -> P_hat d' = P_hat d ->
  has_shape (d_J d) (d_Theta d) a -> has_shape (d_J d) (d_Theta d) a' ->
  (t < d_Theta d)%nat ->
  (forall i, (i < d_J d)%nat ->
     cell a' i t = cell a i t
     /\ cell (d_w d') i t = cell (d_w d) i t
     /\ cell (d_L_b d') i t = cell (d_L_b d) i t
     /\ cell (L_hat d') i t = cell (L_hat d) i t
     /\ cell (w_hat d') i t = cell (w_hat d) i t) ->
  update p d a = Ok A_hat_up -> update p d' a' = Ok A_hat_up' ->
  forall i, (i < d_J d)%nat -> cell A_hat_up' i t = cell A_hat_up i t.
Proof.
  intros Hd Hd' HJ HT HP HPh Ha Ha' Ht Hcol Hu Hu' i Hi.
  destruct (update_Ok_inv p Hd Ha Hu) as [HJ0 Hg].
  destruct (update_spec p Hd Ha HJ0 Hg) as (up & Hup & _ & Hc).
  rewrite <- HJ, <- HT in Ha'.
  assert (HJ0' : (0 < d_J d')%nat) by lia.
  destruct (update_spec p Hd' Ha' HJ0' Hg) as (up' & Hup' & _ & Hc').
  assert (up = A_hat_up) by congruence; assert (up' = A_hat_up') by congruence.
  subst up up'.
  rewrite Hc, Hc' by lia.
  assert (Hnom : forall j, (j < d_J d)%nat ->
            spec_nom p d' a' j t = spec_nom p d a j t).
  { intros j Hj; unfold spec_nom; rewrite HP.
    destruct (Hcol j Hj) as (-> & -> & _); reflexivity. }
  assert (HPsi : forall j, (j < d_J d)%nat ->
            spec_Psi_b p d' a' j t = spec_Psi_b p d a j t).
  { intros j Hj; unfold spec_Psi_b; rewrite HJ, Hnom by auto.
    do 3 f_equal; apply sum_over_ext; auto. }
  assert (HmL : forall j, (j < d_J d)%nat ->
            spec_mathcal_L p d' a' j t = spec_mathcal_L p d a j t).
  { intros j Hj; unfold spec_mathcal_L; rewrite HJ, HPsi by auto.
    destruct (Hcol j Hj) as (_ & _ & -> & _); f_equal.
    apply sum_over_ext; intros k Hk; rewrite HPsi by auto.
    destruct (Hcol k Hk) as (_ & _ & -> & _); reflexivity. }
  unfold spec_A_hat_new, spec_mathcal_L_hat.
  rewrite HPh, !HmL by auto.
  destruct (Hcol i Hi) as (_ & _ & _ & -> & ->); reflexivity.
Qed.

Lemma update_column_independent_witness :
  exists A_hat_up A_hat_up',
    update default_params (derived_of default_params batch_x) (ones 2 2)
    = Ok A_hat_up
    /\ update default_params (derived_of default_params batch_x') (ones 2 2)
       = Ok A_hat_up'
    /\ cell A_hat_up' 1 0 = cell A_hat_up 1 0.
Proof.
  set (p := default_params).
  set (d := derived_of p batch_x); set (d' := derived_of p batch_x').
  assert (Hx : admissible batch_x)
    by (split; try reflexivity; simpl; try lia; repeat constructor).
  assert (Hx' : admissible batch_x')
    by (split; try reflexivity; simpl; try lia; repeat constructor).
  pose proof (derived_well_formed p Hx) as Hd; fold d in Hd.
  pose proof (derived_well_formed p Hx') as Hd'; fold d' in Hd'.
  assert (Hs : has_shape (d_J d) (d_Theta d) (ones 2 2)) by apply shape_ones.
  assert (Hs' : has_shape (d_J d') (d_Theta d') (ones 2 2))
    by apply shape_ones.
  assert (HJ : (0 < d_J d)%nat) by (simpl; unfold len; simpl; lia).
  destruct (update_spec p Hd Hs HJ default_gamma) as (up & Hu & _).
  destruct (update_spec p Hd' Hs' HJ default_gamma) as (up' & Hu' & _).
  exists up, up'; split; [exact Hu|]; split; [exact Hu'|].
  apply (@update_column_independent p d d' (ones 2 2) (ones 2 2) up up' 0
           Hd Hd' eq_refl eq_refl eq_refl eq_refl Hs Hs);
    try assumption; try (simpl; lia).
  - intros i Hi; destruct i as [|[|i]];
      [repeat split; reflexivity | repeat split; reflexivity |].
    simpl in Hi; unfold len in Hi; simpl in Hi; lia.
  - simpl; unfold len; simpl; lia.
Defined.

(** On a valid input every entry of the returned vector is positive. *)
Theorem result_positive p x :
  valid_input p x ->
  exists out v,
    invert_quality_of_life p x = Some (out, Ok v)
    /\ length v = len (L_b x)
    /\ forall i, (i < len (L_b x))%nat -> 0 < nth i v 0.
Proof.
  intros Hx.
  pose proof (derived_in_domain Hx) as Hd.
  destruct (run_positive p Hd (valid_gamma Hx) (valid_conv Hx))
    as (s & Hr & Hi & _).
  rewrite (invert_admissible p (valid_adm Hx)), Hr.
  rewrite (sh_alias (inv_shaped Hi)).
  eexists _, _; split; [reflexivity|]; split.
  - rewrite length_map; apply (sh_A_hat (inv_shaped Hi)).
  - intros i Hlt; rewrite nth_column0.
    apply (inv_pos Hi); auto; apply (dom_Theta Hd).
Qed.

Lemma result_positive_witness :
  exists out v,
    invert_quality_of_life default_params example_x = Some (out, Ok v)
    /\ 0 < nth 1 v 0.
Proof.
  destruct (result_positive example_valid) as (out & v & H & _ & Hp).
  exists out, v; split; [exact H|].
  apply Hp; unfold len; simpl; lia.
Defined.

(** ** Further properties: units of measurement *)

(** Two preprocessed problems of which the second has the ratio [w / P]
    multiplied by [k] and the rescaled [L_b] multiplied by [m]. *)
Section Rescaled.

Variable p : params.
Variables d d' : derived.
Variables k m : R.

Hypothesis Hd : in_domain d.
Hypothesis Hd' : well_formed d'.
Hypothesis HJ : d_J d' = d_J d.
Hypothesis HT : d_Theta d' = d_Theta d.
Hypothesis HL : L_hat d' = L_hat d.
Hypothesis Hw : w_hat d' = w_hat d.
Hypothesis HP : P_hat d' = P_hat d.
Hypothesis Hk : 0 < k.
Hypothesis Hm : 0 < m.
Hypothesis Hratio : forall i t, (i < d_J d)%nat -> (t < d_Theta d)%nat ->
  cell (d_w d') i t / nth i (P d') 0
  = k * (cell (d_w d) i t / nth i (P d) 0).
Hypothesis HLb : forall i t, (i < d_J d)%nat -> (t < d_Theta d)%nat ->
  cell (d_L_b d') i t = m * cell (d_L_b d) i t.
Hypothesis Hgamma : gamma p <> 0.
Hypothesis Hconv : 0 <= conv p <= 1.

Abbreviation J := (d_J d).
Abbreviation T := (d_Theta d).

Section Guess.

Variable a : matrix.
Hypothesis Ha : has_shape J T a.
Hypothesis Hpos : pos_cells J T a.

Lemma spec_nom_rescaled i t :
  (i < J)%nat -> (t < T)%nat ->
  spec_nom p d' a i t = Rpower k (gamma p) * spec_nom p d a i t.
Proof.
  intros Hi Ht; unfold spec_nom.
  pose proof (bases_positive p Hd Hpos Hi Ht) as [Hb _].
  rewrite Rpower_mult_distr by auto; f_equal.
  replace (cell a i t * cell (d_w d') i t / nth i (P d') 0)
    with (cell a i t * (cell (d_w d') i t / nth i (P d') 0))
    by (unfold Rdiv; ring).
  rewrite Hratio by auto; unfold Rdiv; ring.
Qed.

Lemma spec_Psi_b_rescaled i t :
  (i < J)%nat -> (t < T)%nat -> spec_Psi_b p d' a i t = spec_Psi_b p d a i t.
Proof.
  intros Hi Ht; unfold spec_Psi_b; rewrite HJ.
  rewrite (sum_over_ext _ _ (fun j Hj => spec_nom_rescaled Hj Ht)).
  rewrite sum_over_scale, spec_nom_rescaled by auto.
  assert (Hkg : 0 < Rpower k (gamma p)) by apply Rpower_pos.
  assert (HS : 0 < sum_over J (fun j => spec_nom p d a j t)).
  { apply sum_over_pos; [apply (dom_J Hd)|].
    intros j _; apply spec_nom_pos. }
  f_equal; f_equal; field; split; lra.
Qed.

Lemma spec_mathcal_L_rescaled i t :
  (i < J)%nat -> (t < T)%nat ->
  spec_mathcal_L p d' a i t = m * spec_mathcal_L p d a i t.
Proof.
  intros Hi Ht; unfold spec_mathcal_L; rewrite HJ.
  rewrite (sum_over_ext _
             (fun j => m * (cell (d_L_b d) j t * spec_Psi_b p d a j t))).
  - rewrite sum_over_scale, HLb, spec_Psi_b_rescaled by auto; ring.
  - intros j Hj; rewrite HLb, spec_Psi_b_rescaled by auto; ring.
Qed.

Lemma update_rescaled : update p d' a = update p d a.
Proof.
  pose proof (dom_J Hd) as HJ0.
  assert (Ha' : has_shape (d_J d') (d_Theta d') a) by now rewrite HJ, HT.
  assert (HJ0' : (0 < d_J d')%nat) by lia.
  destruct (update_spec p (dom_wf Hd) Ha HJ0 Hgamma)
    as (up & -> & Hsh & Hc).
  destruct (update_spec p Hd' Ha' HJ0' Hgamma) as (up' & -> & Hsh' & Hc').
  rewrite HJ, HT in Hsh', Hc'.
  f_equal; apply matrix_ext with (J := J) (T := T); auto.
  intros i t Hi Ht; rewrite Hc, Hc' by auto.
  unfold spec_A_hat_new, spec_mathcal_L_hat.
  rewrite HP, Hw, HL, !spec_mathcal_L_rescaled by auto.
  pose proof (spec_mathcal_L_pos p Hd a HJ0 Ht).
  do 3 f_equal; field; lra.
Qed.

End Guess.

Lemma pass_rescaled s : inv d s -> pass p d' s = pass p d s.
Proof.
  intros [[Hs Hal] Hpos _]; unfold pass; simpl.
  rewrite Hal, (update_rescaled Hs Hpos).
  unfold O_total_of; rewrite HJ; reflexivity.
Qed.

Lemma while_rescaled fuel s :
  inv d s -> while p d' fuel s = while p d fuel s.
Proof.
  revert s; induction fuel as [|fuel IH]; intros s Hs; simpl;
    [reflexivity|].
  destruct (continue p s); [|reflexivity].
  rewrite (pass_rescaled Hs).
  destruct (pass_positive p Hd Hgamma Hconv Hs) as (s' & -> & Hs'); auto.
Qed.

Lemma run_rescaled : run p d' = run p d.
Proof.
  unfold run, initial; rewrite HJ, HT.
  apply while_rescaled, (initial_inv d (dom_J Hd)).
Qed.

End Rescaled.

Lemma nth_scale_vector c v i :
  (i < length v)%nat -> nth i (scale_vector c v) 0 = c * nth i v 0.
Proof. intros Hi; unfold scale_vector; now rewrite map_nth_in. Qed.

Lemma relative_scale_vector c v :
  0 < c -> positive v ->
  map (fun e => e / nth 0 (scale_vector c v) 0) (scale_vector c v)
  = map (fun e => e / nth 0 v 0) v.
Proof.
  intros Hc Hv; destruct v as [|v0 v]; [reflexivity|].
  assert (H0 : 0 < v0) by (inversion Hv; auto).
  unfold scale_vector; rewrite map_map; apply map_ext.
  intros e; simpl; field; split; lra.
Qed.

Section Units.

Variable p : params.
Variable x : extracted.
Variables c_L c_b c_t c_n c_H : R.
Hypothesis Hx : valid_input p x.
Hypothesis HcL : 0 < c_L.
Hypothesis Hcb : 0 < c_b.
Hypothesis Hct : 0 < c_t.
Hypothesis Hcn : 0 < c_n.
Hypothesis HcH : 0 < c_H.

Abbreviation J := (len (L_b x)).
Abbreviation T := (shape1 (L_b x)).
Abbreviation x' := (rescale_units c_L c_b c_t c_n c_H x).
Abbreviation d := (derived_of p x).
Abbreviation d' := (derived_of p x').

Lemma well_shaped_scale_array c a :
  well_shaped a -> well_shaped (scale_array c a).
Proof.
  unfold well_shaped, scale_array, mmap; simpl; intros H.
  rewrite Forall_map; eapply Forall_impl; [|exact H].
  intros r Hr; simpl; now rewrite length_map.
Qed.

Lemma units_admissible : admissible x'.
Proof.
  destruct (valid_adm Hx) as [Hw HL HLb Hr Hcol HJ HT].
  split; auto.
  - now apply well_shaped_scale_array.
  - now apply well_shaped_scale_array.
  - rewrite <- Hr; unfold row_counts, len; simpl.
    unfold scale_vector, mmap; now rewrite !length_map.
  - unfold len; simpl; unfold mmap; now rewrite length_map.
Qed.

Lemma units_J : len (L_b x') = J.
Proof. unfold len; simpl; unfold mmap; now rewrite length_map. Qed.

Lemma cell_scale_array c a i t :
  has_shape J T (cells a) -> (i < J)%nat -> (t < T)%nat ->
  cell (cells (scale_array c a)) i t = c * cell (cells a) i t.
Proof. intros Ha Hi Ht; simpl; now rewrite (cell_mmap (J := J) (T := T)). Qed.

Lemma units_L_hat : L_hat d' = L_hat d.
Proof.
  pose proof (derived_well_formed p (valid_adm Hx)) as Hd.
  pose proof (wf_L_hat (derived_well_formed p units_admissible)) as Hd'.
  pose proof (shape_L (valid_adm Hx)) as HL.
  pose proof (shape_L units_admissible) as HL'.
  pose proof (adm_J (valid_adm Hx)) as HJ.
  change (d_J d') with (len (L_b x')) in Hd'.
  change (d_Theta d') with T in Hd'; change (shape1 (L_b x')) with T in HL'.
  rewrite units_J in Hd', HL'.
  apply matrix_ext with (J := J) (T := T);
    [apply Hd' | apply (wf_L_hat Hd) |].
  intros i t Hi Ht; simpl L_hat.
  rewrite !(cell_row_bc (J := J) (T := T)); auto;
    try (eapply has_shape_row; eauto).
  fold (cell (mmap (Rmult c_L) (cells (L x))) 0 t) (cell (cells (L x)) 0 t).
  rewrite !(cell_mmap (J := J) (T := T)) by auto.
  pose proof (pos_L Hx HJ Ht); field; lra.
Qed.

Lemma units_P_hat : P_hat d' = P_hat d.
Proof.
  simpl.
  rewrite !relative_scale_vector; auto; apply Hx.
Qed.

Abbreviation K := (price_level_factor p c_t c_n c_H).

Lemma units_P i : (i < J)%nat -> nth i (P d') 0 = K * nth i (P d) 0.
Proof.
  intros Hi; simpl.
  destruct (proj1 (one_value_rows x) (adm_rows (valid_adm Hx)))
    as (_ & _ & H3 & H4 & H5).
  rewrite !(@nth_price_level _ _ _ _ _ J)
    by (unfold scale_vector; rewrite ?length_map; auto).
  rewrite !nth_scale_vector by lia.
  assert (0 < nth i (P_t x) 0) by (apply positive_nth; [apply Hx | lia]).
  assert (0 < nth i (p_n x) 0) by (apply positive_nth; [apply Hx | lia]).
  assert (0 < nth i (p_H x) 0) by (apply positive_nth; [apply Hx | lia]).
  rewrite <- !Rpower_mult_distr by auto; unfold price_level_factor; ring.
Qed.

Lemma units_K_pos : 0 < K.
Proof.
  unfold price_level_factor; repeat apply Rmult_lt_0_compat;
    apply Rpower_pos.
Qed.

Lemma units_ratio i t :
  (i < J)%nat -> (t < T)%nat ->
  cell (d_w d') i t / nth i (P d') 0
  = / K * (cell (d_w d) i t / nth i (P d) 0).
Proof.
  intros Hi Ht; rewrite units_P by auto.
  pose proof units_K_pos.
  assert (HP : 0 < nth i (P d) 0) by (apply (dom_P (derived_in_domain Hx) Hi)).
  change (d_w d') with (d_w d); field; split; lra.
Qed.

Lemma units_L_b i t :
  (i < J)%nat -> (t < T)%nat ->
  cell (d_L_b d') i t = c_L * cell (d_L_b d) i t.
Proof.
  intros Hi Ht; simpl.
  pose proof (valid_adm Hx) as Ha.
  pose proof (adm_J Ha) as HJ.
  assert (Hi' : (i < len (L_b x'))%nat) by now rewrite units_J.
  rewrite (cell_adjust_L_b units_admissible Hi' Ht).
  rewrite (cell_adjust_L_b Ha Hi Ht), units_J.
  change (L_b x') with (scale_array c_b (L_b x)).
  change (L x') with (scale_array c_L (L x)).
  rewrite (cell_scale_array c_b (L_b x) (shape_L_b Ha) Hi Ht).
  rewrite (sum_over_ext _ (fun j => c_L * cell (cells (L x)) j t))
    by (intros j Hj; apply (cell_scale_array c_L (L x) (shape_L Ha) Hj Ht)).
  rewrite (sum_over_ext
             (fun j => cell (cells (scale_array c_b (L_b x))) j t)
             (fun j => c_b * cell (cells (L_b x)) j t))
    by (intros j Hj;
        apply (cell_scale_array c_b (L_b x) (shape_L_b Ha) Hj Ht)).
  rewrite !sum_over_scale.
  assert (0 < sum_over J (fun j => cell (cells (L_b x)) j t))
    by (apply sum_over_pos; auto; intros j Hj; apply (pos_L_b Hx); auto).
  field; split; lra.
Qed.

Lemma units_run : run p d' = run p d.
Proof.
  apply run_rescaled with (k := / K) (m := c_L);
    auto using units_J, units_L_hat, units_P_hat, units_ratio, units_L_b.
  - apply derived_in_domain, Hx.
  - apply derived_well_formed, units_admissible.
  - apply Rinv_0_lt_compat, units_K_pos.
  - apply Hx.
  - apply Hx.
Qed.

End Units.

(** Units of measurement do not matter: on a valid input, multiplying the
    populations [L] and [L_b] and the prices [P_t], [p_n] and [p_H] by a
    positive constant each leaves the output of the call as it is. *)
Theorem units_invariance p x c_L c_b c_t c_n c_H :
  valid_input p x ->
  0 < c_L -> 0 < c_b -> 0 < c_t -> 0 < c_n -> 0 < c_H ->
  exists out v,
    invert_quality_of_life p x = Some (out, Ok v)
    /\ invert_quality_of_life p (rescale_units c_L c_b c_t c_n c_H x)
       = Some (out, Ok v).
Proof.
  intros Hx HL Hb Ht Hn HH.
  pose proof (derived_in_domain Hx) as Hd.
  destruct (run_positive p Hd (valid_gamma Hx) (valid_conv Hx))
    as (s & Hr & _).
  rewrite (invert_admissible p (valid_adm Hx)).
  rewrite (invert_admissible p (units_admissible c_L c_b c_t c_n c_H Hx)).
  rewrite (units_run Hx HL Hb Ht Hn HH), Hr.
  eexists _, _; split; reflexivity.
Qed.

Lemma units_invariance_witness :
  exists out v,
    invert_quality_of_life default_params example_x = Some (out, Ok v)
    /\ invert_quality_of_life default_params
         (rescale_units 1000 2 3 5 7 example_x)
       = Some (out, Ok v).
Proof.
  apply (units_invariance example_valid); lra.
Defined.

(** ** Further properties: the progress lines *)

Lemma printed_counts_snoc out c o :
  printed_counts (out ++ [Iteration c o]) = printed_counts out ++ [c].
Proof. unfold printed_counts; now rewrite flat_map_app. Qed.

Lemma printed_objectives_snoc out c o :
  printed_objectives (out ++ [Iteration c o]) = printed_objectives out ++ [o].
Proof. unfold printed_objectives; now rewrite flat_map_app. Qed.

(** When the loop has ended, the progress lines are numbered 1, 2, ... in
    order; line 1 shows 100000 and line [k + 1] the objective of pass [k],
    so that the objective of the last pass, the one the loop ended on, is
    on no line. *)
Theorem progress_lines p d s :
  run p d = Some (Next s) ->
  printed_counts (stdout s)
  = map Z.of_nat (seq 1 (iterations (stdout s)))
  /\ printed_objectives (stdout s) ++ [O_total s]
     = 100000 :: O_vector_total s.
Proof.
  intros Hr.
  set (I := fun s =>
    count s = (1 + Z.of_nat (iterations (stdout s)))%Z
    /\ printed_counts (stdout s)
       = map Z.of_nat (seq 1 (iterations (stdout s)))
    /\ printed_objectives (stdout s) ++ [O_total s]
       = 100000 :: O_vector_total s).
  assert (Hstep : forall s s', I s -> pass p d s = Next s' -> I s').
  { intros s1 s2 (Hc & Hn & Ho) Hp.
    destruct (pass_cases p d s1) as [(up & _ & Hn')|(e & s3 & Hn' & _)];
      [|congruence].
    rewrite Hn' in Hp; injection Hp as <-; unfold I, after_pass.
    cbn [count stdout O_total O_vector_total].
    rewrite iterations_snoc, printed_counts_snoc, printed_objectives_snoc.
    repeat split.
    - lia.
    - rewrite seq_S, map_app, Hn; simpl; do 3 f_equal; lia.
    - rewrite Ho; reflexivity. }
  assert (Hi : I (initial d)) by (repeat split).
  destruct (while_preserves p d I Hstep _ _ Hi Hr) as [(_ & H1 & H2) _].
  auto.
Qed.

Lemma progress_lines_witness :
  printed_counts
    (stdout (after_uniform_pass (derived_of one_pass_params uniform_x)
               (initial (derived_of one_pass_params uniform_x))))
  = [1%Z].
Proof.
  set (p := one_pass_params); set (d := derived_of p uniform_x).
  assert (Hx : valid_input p uniform_x) by (apply uniform_valid; simpl; lra).
  assert (Hr : run p d = Some (Next (after_uniform_pass d (initial d)))).
  { unfold run; change (Z.to_nat (maxiter p)) with 1%nat.
    rewrite (while_step p d 0 (initial d)
               (s' := after_uniform_pass d (initial d)));
      [| apply continue_true; simpl; split; [lra | lia]
       | apply (pass_uniform Hx uniform_identical); reflexivity].
    apply while_exit, continue_false; left; simpl; lra. }
  exact (proj1 (progress_lines p d Hr)).
Defined.
